(** * pgmspace.h: the flat-memory stand-in for the AVR program-memory API

    The header [AES-Hardware/Almost-finished/pgmspace.h] consists of an
    include guard, one system include, a handful of [typedef]s and a table of
    [#define]s.  Its meaning is what the C preprocessor and the C abstract
    machine make of these lines, so the development has three layers:

    - the lines of the header, transcribed one by one ([pgmspace_h]);
    - the translation phase that reads them: conditional inclusion, macro
      definition, [typedef] declaration and macro expansion over expression
      trees ([process], [expand]);
    - the evaluation of the expanded expressions over a byte-addressed flat
      memory ([eval]), for the basic-type widths of the compiling target. *)

From Stdlib Require Import ZArith.
From Stdlib Require Strings.Byte.
From stdpp Require Import base strings gmap list fin_maps option.

Local Open Scope Z_scope.

(** ** C types and values *)

(** The type names the header spells out, the exact-width integer types that
    [<inttypes.h>] supplies, and names still to be resolved ([typedef] names
    and type-valued macros such as [PGM_P]). *)
Inductive ctype : Type :=
  | TVoid
  | TChar
  | TUChar
  | TUShort
  | TULong
  | TFloat
  | TExact (sg : bool) (bytes : nat)
  | TNamed (n : string)
  | TConst (t : ctype)
  | TPtr (t : ctype).

Global Instance ctype_eq_dec : EqDecision ctype.
Proof. solve_decision. Defined.

(** Run-time values.  A [float] is carried as the bit pattern of its object
    representation; a pointer remembers the type it points to. *)
Inductive value : Type :=
  | VInt (z : Z)
  | VFloat (bits : Z)
  | VPtr (t : ctype) (a : Z).

Global Instance value_eq_dec : EqDecision value.
Proof. solve_decision. Defined.

(** ** Expressions

    The expression fragment in which macro bodies and macro arguments are
    written.  [EParen] is kept as a node of its own: the header wraps every
    forwarded argument in parentheses. *)
Local Unset Elimination Schemes.
Inductive expr : Type :=
  | EVal (v : value)
  | EStr (s : string)
  | EId (x : string)
  | EParen (e : expr)
  | EDeref (e : expr)
  | ECast (t : ctype) (e : expr)
  | EAdd (a b : expr)
  | EPostInc (x : string)
  | ECall (f : string) (args : list expr).
Local Set Elimination Schemes.

Global Instance expr_eq_dec : EqDecision expr.
Proof.
  refine (fix go (a b : expr) {struct a} : Decision (a = b) :=
    match a, b with
    | EVal v1, EVal v2 => cast_if (decide (v1 = v2))
    | EStr s1, EStr s2 => cast_if (decide (s1 = s2))
    | EId x1, EId x2 => cast_if (decide (x1 = x2))
    | EParen e1, EParen e2 => cast_if (go e1 e2)
    | EDeref e1, EDeref e2 => cast_if (go e1 e2)
    | ECast t1 e1, ECast t2 e2 => cast_if_and (decide (t1 = t2)) (go e1 e2)
    | EAdd a1 b1, EAdd a2 b2 => cast_if_and (go a1 a2) (go b1 b2)
    | EPostInc x1, EPostInc x2 => cast_if (decide (x1 = x2))
    | ECall f1 l1, ECall f2 l2 =>
        cast_if_and (decide (f1 = f2)) (@list_eq_dec _ go l1 l2)
    | _, _ => right _
    end); clear go; abstract congruence.
Defined.

(** ** Macros *)

Inductive body : Type :=
  | BEmpty
  | BType (t : ctype)
  | BExpr (e : expr).

(** [params = None] is an object-like macro, [Some ps] a function-like one. *)
Record macro : Type := Macro { params : option (list string); mbody : body }.

Global Instance body_eq_dec : EqDecision body.
Proof. solve_decision. Defined.
Global Instance macro_eq_dec : EqDecision macro.
Proof. solve_decision. Defined.

Definition object_like (b : body) : macro := Macro None b.
Definition function_like (ps : list string) (e : expr) : macro :=
  Macro (Some ps) (BExpr e).

(** Shorthands for the two shapes every function-like body of the header is
    built from: a parameter in parentheses, [(p)], and a plain call. *)
Definition par (p : string) : expr := EParen (EId p).

(** ** The header, line by line *)

Inductive line : Type :=
  | Ifndef (guard : string)
  | Endif
  | Include (header : string)
  | Define (name : string) (m : macro)
  | Typedef (t : ctype) (name : string).

(** [#define __PGMSPACE_H_] and [#define PROGMEM]: defined, with an empty
    replacement list. *)
Definition __PGMSPACE_H_ : macro := object_like BEmpty.
Definition PROGMEM : macro := object_like BEmpty.
(** [#define PGM_P const char *] *)
Definition PGM_P : macro := object_like (BType (TPtr (TConst TChar))).
(** [#define PSTR(str) (str)] *)
Definition PSTR : macro := function_like ["str"] (par "str").
(** [#define _SFR_BYTE(n) (n)] *)
Definition _SFR_BYTE : macro := function_like ["n"] (par "n").

Definition memchr_P : macro :=
  function_like ["str"; "c"; "len"] (ECall "memchr" [par "str"; par "c"; par "len"]).
Definition memcmp_P : macro :=
  function_like ["a"; "b"; "n"] (ECall "memcmp" [par "a"; par "b"; par "n"]).
Definition memcpy_P : macro :=
  function_like ["dest"; "src"; "n"] (ECall "memcpy" [par "dest"; par "src"; par "n"]).
Definition memmem_P : macro :=
  function_like ["a"; "alen"; "b"; "blen"]
    (ECall "memmem" [par "a"; par "alen"; par "b"; par "blen"]).
Definition memrchr_P : macro :=
  function_like ["str"; "val"; "len"] (ECall "memrchr" [par "str"; par "val"; par "len"]).
Definition strcat_P : macro :=
  function_like ["dest"; "src"] (ECall "strcat" [par "dest"; par "src"]).
Definition strchr_P : macro :=
  function_like ["str"; "c"] (ECall "strchr" [par "str"; par "c"]).
Definition strchrnul_P : macro :=
  function_like ["str"; "c"] (ECall "strchrnul" [par "str"; par "c"]).
Definition strcmp_P : macro :=
  function_like ["a"; "b"] (ECall "strcmp" [par "a"; par "b"]).
Definition strcpy_P : macro :=
  function_like ["dest"; "src"] (ECall "strcpy" [par "dest"; par "src"]).
Definition strcasecmp_P : macro :=
  function_like ["a"; "b"] (ECall "strcasecmp" [par "a"; par "b"]).
Definition strcasestr_P : macro :=
  function_like ["a"; "b"] (ECall "strcasestr" [par "a"; par "b"]).
Definition strcspn_P : macro :=
  function_like ["a"; "b"] (ECall "strcspn" [par "a"; par "b"]).
Definition strlcat_P : macro :=
  function_like ["dest"; "src"; "n"] (ECall "strlcat" [par "dest"; par "src"; par "n"]).
Definition strlcpy_P : macro :=
  function_like ["dest"; "src"; "n"] (ECall "strlcpy" [par "dest"; par "src"; par "n"]).
Definition strlen_P : macro :=
  function_like ["s"] (ECall "strlen" [par "s"]).
Definition strnlen_P : macro :=
  function_like ["s"; "n"] (ECall "strnlen" [par "s"; par "n"]).
Definition strncmp_P : macro :=
  function_like ["a"; "b"; "n"] (ECall "strncmp" [par "a"; par "b"; par "n"]).
Definition strncasecmp_P : macro :=
  function_like ["a"; "b"; "n"] (ECall "strncasecmp" [par "a"; par "b"; par "n"]).
Definition strncat_P : macro :=
  function_like ["a"; "b"; "n"] (ECall "strncat" [par "a"; par "b"; par "n"]).
Definition strncpy_P : macro :=
  function_like ["a"; "b"; "n"] (ECall "strncpy" [par "a"; par "b"; par "n"]).
Definition strpbrk_P : macro :=
  function_like ["a"; "b"] (ECall "strpbrk" [par "a"; par "b"]).
Definition strrchr_P : macro :=
  function_like ["str"; "c"] (ECall "strrchr" [par "str"; par "c"]).
Definition strsep_P : macro :=
  function_like ["sp"; "b"] (ECall "strsep" [par "sp"; par "b"]).
Definition strspn_P : macro :=
  function_like ["a"; "b"] (ECall "strspn" [par "a"; par "b"]).
Definition strstr_P : macro :=
  function_like ["a"; "b"] (ECall "strstr" [par "a"; par "b"]).
Definition strtok_P : macro :=
  function_like ["s"; "d"] (ECall "strtok" [par "s"; par "d"]).
Definition strtok_rP : macro :=
  function_like ["s"; "d"; "p"] (ECall "strtok_r" [par "s"; par "d"; par "p"]).

(** [#define pgm_read_byte(addr) (*(const unsigned char *)(addr))] and its
    four siblings: a parenthesised dereference of the parenthesised argument
    cast to a pointer to the const-qualified type. *)
Definition pgm_read_byte : macro :=
  function_like ["addr"] (EParen (EDeref (ECast (TPtr (TConst TUChar)) (par "addr")))).
Definition pgm_read_word : macro :=
  function_like ["addr"] (EParen (EDeref (ECast (TPtr (TConst TUShort)) (par "addr")))).
Definition pgm_read_dword : macro :=
  function_like ["addr"] (EParen (EDeref (ECast (TPtr (TConst TULong)) (par "addr")))).
Definition pgm_read_float : macro :=
  function_like ["addr"] (EParen (EDeref (ECast (TPtr (TConst TFloat)) (par "addr")))).
(** [void * const *]: a pointer to a const pointer to [void]. *)
Definition pgm_read_ptr : macro :=
  function_like ["addr"] (EParen (EDeref (ECast (TPtr (TConst (TPtr TVoid))) (par "addr")))).

Definition pgm_read_byte_near : macro :=
  function_like ["addr"] (ECall "pgm_read_byte" [EId "addr"]).
Definition pgm_read_word_near : macro :=
  function_like ["addr"] (ECall "pgm_read_word" [EId "addr"]).
Definition pgm_read_dword_near : macro :=
  function_like ["addr"] (ECall "pgm_read_dword" [EId "addr"]).
Definition pgm_read_float_near : macro :=
  function_like ["addr"] (ECall "pgm_read_float" [EId "addr"]).
Definition pgm_read_ptr_near : macro :=
  function_like ["addr"] (ECall "pgm_read_ptr" [EId "addr"]).

Definition pgm_read_byte_far : macro :=
  function_like ["addr"] (ECall "pgm_read_byte" [EId "addr"]).
Definition pgm_read_word_far : macro :=
  function_like ["addr"] (ECall "pgm_read_word" [EId "addr"]).
Definition pgm_read_dword_far : macro :=
  function_like ["addr"] (ECall "pgm_read_dword" [EId "addr"]).
Definition pgm_read_float_far : macro :=
  function_like ["addr"] (ECall "pgm_read_float" [EId "addr"]).
Definition pgm_read_ptr_far : macro :=
  function_like ["addr"] (ECall "pgm_read_ptr" [EId "addr"]).

Definition pgmspace_h : list line :=
  [ Ifndef "__PGMSPACE_H_";
    Define "__PGMSPACE_H_" __PGMSPACE_H_;
    Include "inttypes.h";
    Define "PROGMEM" PROGMEM;
    Define "PGM_P" PGM_P;
    Define "PSTR" PSTR;
    Define "_SFR_BYTE" _SFR_BYTE;
    Typedef TVoid "prog_void";
    Typedef TChar "prog_char";
    Typedef TUChar "prog_uchar";
    Typedef (TNamed "int8_t") "prog_int8_t";
    Typedef (TNamed "uint8_t") "prog_uint8_t";
    Typedef (TNamed "int16_t") "prog_int16_t";
    Typedef (TNamed "uint16_t") "prog_uint16_t";
    Typedef (TNamed "int32_t") "prog_int32_t";
    Typedef (TNamed "uint32_t") "prog_uint32_t";
    Typedef (TNamed "int64_t") "prog_int64_t";
    Typedef (TNamed "uint64_t") "prog_uint64_t";
    Define "memchr_P" memchr_P;
    Define "memcmp_P" memcmp_P;
    Define "memcpy_P" memcpy_P;
    Define "memmem_P" memmem_P;
    Define "memrchr_P" memrchr_P;
    Define "strcat_P" strcat_P;
    Define "strchr_P" strchr_P;
    Define "strchrnul_P" strchrnul_P;
    Define "strcmp_P" strcmp_P;
    Define "strcpy_P" strcpy_P;
    Define "strcasecmp_P" strcasecmp_P;
    Define "strcasestr_P" strcasestr_P;
    Define "strcspn_P" strcspn_P;
    Define "strlcat_P" strlcat_P;
    Define "strlcpy_P" strlcpy_P;
    Define "strlen_P" strlen_P;
    Define "strnlen_P" strnlen_P;
    Define "strncmp_P" strncmp_P;
    Define "strncasecmp_P" strncasecmp_P;
    Define "strncat_P" strncat_P;
    Define "strncpy_P" strncpy_P;
    Define "strpbrk_P" strpbrk_P;
    Define "strrchr_P" strrchr_P;
    Define "strsep_P" strsep_P;
    Define "strspn_P" strspn_P;
    Define "strstr_P" strstr_P;
    Define "strtok_P" strtok_P;
    Define "strtok_rP" strtok_rP;
    Define "pgm_read_byte" pgm_read_byte;
    Define "pgm_read_word" pgm_read_word;
    Define "pgm_read_dword" pgm_read_dword;
    Define "pgm_read_float" pgm_read_float;
    Define "pgm_read_ptr" pgm_read_ptr;
    Define "pgm_read_byte_near" pgm_read_byte_near;
    Define "pgm_read_word_near" pgm_read_word_near;
    Define "pgm_read_dword_near" pgm_read_dword_near;
    Define "pgm_read_float_near" pgm_read_float_near;
    Define "pgm_read_ptr_near" pgm_read_ptr_near;
    Define "pgm_read_byte_far" pgm_read_byte_far;
    Define "pgm_read_word_far" pgm_read_word_far;
    Define "pgm_read_dword_far" pgm_read_dword_far;
    Define "pgm_read_float_far" pgm_read_float_far;
    Define "pgm_read_ptr_far" pgm_read_ptr_far;
    Endif ].

(** ** Translation phase: conditional inclusion, definitions, declarations *)

Inductive diagnostic : Type :=
  | MacroRedefined (name : string)
  | TypedefRedefined (name : string)
  | UnknownType (name : string).

(** What the translator knows at a point of the translation unit: the macros
    defined so far, the [typedef] names declared so far (each bound to the
    type it denotes) and the diagnostics issued so far. *)
Record tu : Type := TU {
  macros : gmap string macro;
  typedefs : gmap string ctype;
  diags : list diagnostic
}.

Definition empty_tu : tu := TU ∅ ∅ [].

(** The type a type name denotes where it is written: [typedef] names are
    replaced by what they were declared as. *)
Fixpoint canon (td : gmap string ctype) (t : ctype) : option ctype :=
  match t with
  | TNamed n => td !! n
  | TConst t' => TConst <$> canon td t'
  | TPtr t' => TPtr <$> canon td t'
  | _ => Some t
  end.

(** [#define]: a name may be defined again only with the same parameters and
    replacement list (C 6.10.3p2); anything else is diagnosed. *)
Definition define (name : string) (m : macro) (T : tu) : tu :=
  TU (<[name := m]> (macros T)) (typedefs T)
     (match macros T !! name with
      | Some m0 => if decide (m0 = m) then diags T
                   else diags T ++ [MacroRedefined name]
      | None => diags T
      end).

(** [typedef]: a name is declared once per scope (C99 6.7p3); a second
    declaration is diagnosed. *)
Definition declare (t : ctype) (name : string) (T : tu) : tu :=
  match canon (typedefs T) t with
  | None => TU (macros T) (typedefs T) (diags T ++ [UnknownType name])
  | Some c =>
      TU (macros T) (<[name := c]> (typedefs T))
         (match typedefs T !! name with
          | Some _ => diags T ++ [TypedefRedefined name]
          | None => diags T
          end)
  end.

(** Reading a file.  [skip] counts the conditional groups that are being
    skipped ([0]: lines are processed).  [sys] is what including a system
    header does to the translation unit. *)
Fixpoint process (sys : string → tu → tu) (ls : list line) (skip : nat) (T : tu) : tu :=
  match ls with
  | [] => T
  | l :: rest =>
      match skip, l with
      | O, Ifndef g =>
          match macros T !! g with
          | Some _ => process sys rest 1%nat T
          | None => process sys rest 0%nat T
          end
      | S _, Ifndef _ => process sys rest (S skip) T
      | _, Endif => process sys rest (Nat.pred skip) T
      | O, Include h => process sys rest 0%nat (sys h T)
      | O, Define n m => process sys rest 0%nat (define n m T)
      | O, Typedef t n => process sys rest 0%nat (declare t n T)
      | S _, _ => process sys rest skip T
      end
  end.

(** [#include "pgmspace.h"] *)
Definition include_pgmspace (sys : string → tu → tu) (T : tu) : tu :=
  process sys pgmspace_h 0 T.

(** The exact-width integer types of [<inttypes.h>] (C99 7.18.1.1): [intN_t]
    is a signed and [uintN_t] an unsigned integer type of exactly N bits. *)
Definition inttypes_h : list (string * ctype) :=
  [ ("int8_t", TExact true 1);   ("uint8_t", TExact false 1);
    ("int16_t", TExact true 2);  ("uint16_t", TExact false 2);
    ("int32_t", TExact true 4);  ("uint32_t", TExact false 4);
    ("int64_t", TExact true 8);  ("uint64_t", TExact false 8) ].

(** A system header is guarded on its own: it declares each of its names
    once, however often it is included, and it defines none of the names of
    [pgmspace.h]. *)
Definition declare_once (d : string * ctype) (T : tu) : tu :=
  match typedefs T !! d.1 with
  | Some _ => T
  | None => TU (macros T) (<[d.1 := d.2]> (typedefs T)) (diags T)
  end.

Definition system_header (h : string) (T : tu) : tu :=
  if decide (h = "inttypes.h") then foldl (λ T d, declare_once d T) T inttypes_h
  else T.

(** The translation unit right after its first [#include "pgmspace.h"]. *)
Definition tu0 : tu := include_pgmspace system_header empty_tu.

(** ** Translation phase: macro expansion *)

(** The argument bound to a parameter, first binding first. *)
Fixpoint assoc (x : string) (σ : list (string * expr)) : option expr :=
  match σ with
  | [] => None
  | (y, e) :: σ' => if decide (x = y) then Some e else assoc x σ'
  end.

(** Replacing the parameters in a replacement list by the arguments.  The
    replacement lists of this header use a parameter only as an operand,
    never under [++] and never as the callee of a call. *)
Fixpoint subst (σ : list (string * expr)) (e : expr) : expr :=
  match e with
  | EId x => default (EId x) (assoc x σ)
  | EParen e' => EParen (subst σ e')
  | EDeref e' => EDeref (subst σ e')
  | ECast t e' => ECast t (subst σ e')
  | EAdd a b => EAdd (subst σ a) (subst σ b)
  | ECall f args => ECall f (map (subst σ) args)
  | EVal _ | EStr _ | EPostInc _ => e
  end.

(** Expansion of type-valued object-like macros ([PGM_P]) inside a type
    name.  The result of a replacement is scanned again; [depth] bounds how
    deep replacements may nest. *)
Fixpoint expand_type (M : gmap string macro) (depth : nat) : ctype → option ctype :=
  match depth with
  | O => λ _, None
  | S d =>
      fix go (t : ctype) : option ctype :=
        match t with
        | TNamed n =>
            match M !! n with
            | Some (Macro None (BType b)) => expand_type M d b
            | _ => Some t
            end
        | TConst t' => TConst <$> go t'
        | TPtr t' => TPtr <$> go t'
        | _ => Some t
        end
  end.

(** Expansion of an expression.  An identifier that names an object-like
    macro is replaced by the macro's body; a call whose callee names a
    function-like macro has its arguments expanded, the parameters of the
    body replaced by them, and the result scanned again (C 6.10.3.1,
    6.10.3.4).  The name of a function-like macro that is not followed by an
    argument list is left alone.  [None]: the wrong number of arguments, a
    macro without an expression body where an expression is needed, or
    replacements nested deeper than [depth]. *)
Fixpoint expand (M : gmap string macro) (depth : nat) : expr → option expr :=
  match depth with
  | O => λ _, None
  | S d =>
      fix go (e : expr) : option expr :=
        match e with
        | EVal _ | EStr _ | EPostInc _ => Some e
        | EId x =>
            match M !! x with
            | Some (Macro None (BExpr b)) => expand M d b
            | Some (Macro None _) => None
            | _ => Some e
            end
        | EParen e' => EParen <$> go e'
        | EDeref e' => EDeref <$> go e'
        | ECast t e' => t' ← expand_type M depth t; ECast t' <$> go e'
        | EAdd a b => a' ← go a; b' ← go b; Some (EAdd a' b')
        | ECall f args =>
            args' ← mapM go args;
            match M !! f with
            | None => Some (ECall f args')
            | Some (Macro (Some ps) (BExpr b)) =>
                if decide (length ps = length args')
                then expand M d (subst (zip ps args') b)
                else None
            | Some _ => None
            end
        end
  end.

(** Replacements in a table without recursion nest no deeper than the table
    has entries. *)
Definition expansion_depth (M : gmap string macro) : nat := S (size M).

(** The expression the compiler proper sees. *)
Definition preprocess (T : tu) (e : expr) : option expr :=
  expand (macros T) (expansion_depth (macros T)) e.

(** ** The compiling target

    The header names its types in C ([unsigned short], [unsigned long],
    [void *]); how wide they are is the target's business.  The data models
    below are those of the AVR itself and of the 32- and 64-bit flat-memory
    targets the header stands in on.  All of them have 8-bit bytes, a
    two-byte [unsigned short] and a four-byte [float]; they differ in
    [unsigned long] and in pointers. *)
Inductive data_model : Type := AVR | ILP32 | LLP64 | LP64.
Inductive byte_order : Type := LittleEndian | BigEndian.

Record target : Type := Target {
  model : data_model;
  order : byte_order;
  char_signed : bool
}.

Definition sizeof_long (tg : target) : nat :=
  match model tg with
  | LP64 => 8
  | AVR | ILP32 | LLP64 => 4
  end.

Definition sizeof_ptr (tg : target) : nat :=
  match model tg with
  | AVR => 2
  | ILP32 => 4
  | LLP64 | LP64 => 8
  end.

(** How the bytes of an object are read. *)
Inductive repr : Type :=
  | RUnsigned
  | RSigned
  | RFloat
  | RPointer (p : ctype).

(** Size in bytes and representation of a complete object type. *)
Fixpoint layout (tg : target) (t : ctype) : option (nat * repr) :=
  match t with
  | TVoid | TNamed _ => None
  | TChar => Some (1%nat, if char_signed tg then RSigned else RUnsigned)
  | TUChar => Some (1%nat, RUnsigned)
  | TUShort => Some (2%nat, RUnsigned)
  | TULong => Some (sizeof_long tg, RUnsigned)
  | TFloat => Some (4%nat, RFloat)
  | TExact sg n => Some (n, if sg then RSigned else RUnsigned)
  | TConst t' => layout tg t'
  | TPtr p => Some (sizeof_ptr tg, RPointer p)
  end.

Definition sizeof (tg : target) (t : ctype) : option nat := fst <$> layout tg t.

(** ** Flat memory *)

Definition byte_val (b : Byte.byte) : Z := Z.of_N (Byte.to_N b).

(** The [n] bytes stored from address [a] on; [None] if one of them lies
    outside the mapped memory. *)
Definition load_bytes (m : gmap Z Byte.byte) (a : Z) (n : nat) : option (list Byte.byte) :=
  mapM (λ i : nat, m !! (a + Z.of_nat i)) (seq 0 n).

Fixpoint le_combine (bs : list Byte.byte) : Z :=
  match bs with
  | [] => 0
  | b :: bs' => byte_val b + 256 * le_combine bs'
  end.

Definition unsigned_of (tg : target) (bs : list Byte.byte) : Z :=
  match order tg with
  | LittleEndian => le_combine bs
  | BigEndian => le_combine (reverse bs)
  end.

(** The value of an [n]-byte integer congruent to [z]. *)
Definition wrap (n : nat) (r : repr) (z : Z) : Z :=
  let w := 2 ^ (8 * Z.of_nat n) in
  match r with
  | RSigned => if z mod w <? w / 2 then z mod w else z mod w - w
  | _ => z mod w
  end.

Definition decode (tg : target) (r : repr) (bs : list Byte.byte) : value :=
  match r with
  | RUnsigned => VInt (unsigned_of tg bs)
  | RSigned => VInt (wrap (length bs) RSigned (unsigned_of tg bs))
  | RFloat => VFloat (unsigned_of tg bs)
  | RPointer p => VPtr p (unsigned_of tg bs)
  end.

(** Reading an object of type [t] at address [a] of ordinary memory. *)
Definition load (tg : target) (t : ctype) (m : gmap Z Byte.byte) (a : Z) : option value :=
  '(n, r) ← layout tg t;
  bs ← load_bytes m a n;
  Some (decode tg r bs).

(** ** Evaluation *)

Record state : Type := State {
  mem : gmap Z Byte.byte;
  vars : gmap string value
}.

Definition address (v : value) : option Z :=
  match v with
  | VInt a | VPtr _ a => Some a
  | VFloat _ => None
  end.

Fixpoint unqual (t : ctype) : ctype :=
  match t with
  | TConst t' => unqual t'
  | _ => t
  end.

Section Eval.
(** The target, the C library the program is linked with (a function is
    given by what it returns and what it leaves in memory), the addresses
    at which string literals are stored, and the [typedef] names in
    scope. *)
Variable tg : target.
Variable libc : string → list value → gmap Z Byte.byte → option (value * gmap Z Byte.byte).
Variable literal : string → Z.
Variable td : gmap string ctype.

(** A cast to a pointer type keeps the address and changes the type
    pointed to; a cast to an integer type reduces to the type's range. *)
Definition cast (t : ctype) (v : value) : option value :=
  c ← canon td t;
  match unqual c with
  | TPtr p => VPtr p <$> address v
  | u =>
      match layout tg u, v with
      | Some (n, RUnsigned), (VInt z | VPtr _ z) => Some (VInt (wrap n RUnsigned z))
      | Some (n, RSigned), (VInt z | VPtr _ z) => Some (VInt (wrap n RSigned z))
      | _, _ => None
      end
  end.

Definition add (v w : value) : option value :=
  match v, w with
  | VInt a, VInt b => Some (VInt (a + b))
  | VPtr p a, VInt i | VInt i, VPtr p a =>
      n ← sizeof tg p; Some (VPtr p (a + i * Z.of_nat n))
  | _, _ => None
  end.

Fixpoint eval (e : expr) (s : state) {struct e} : option (value * state) :=
  match e with
  | EVal v => Some (v, s)
  | EStr l => Some (VPtr TChar (literal l), s)
  | EId x => v ← vars s !! x; Some (v, s)
  | EParen e' => eval e' s
  | EDeref e' =>
      '(v, s1) ← eval e' s;
      match v with
      | VPtr t a => r ← load tg t (mem s1) a; Some (r, s1)
      | _ => None
      end
  | ECast t e' =>
      '(v, s1) ← eval e' s;
      r ← cast t v; Some (r, s1)
  | EAdd a b =>
      '(v, s1) ← eval a s;
      '(w, s2) ← eval b s1;
      r ← add v w; Some (r, s2)
  | EPostInc x =>
      v ← vars s !! x;
      v' ← add v (VInt 1);
      Some (v, State (mem s) (<[x := v']> (vars s)))
  | ECall f args =>
      '(vs, s1) ←
        (fix evals (l : list expr) (s : state) : option (list value * state) :=
           match l with
           | [] => Some ([], s)
           | a :: l' =>
               '(v, s1) ← eval a s;
               '(vs, s2) ← evals l' s1;
               Some (v :: vs, s2)
           end) args s;
      '(r, m') ← libc f vs (mem s1);
      Some (r, State m' (vars s1))
  end.

(** Arguments are evaluated once each, from left to right. *)
Fixpoint eval_list (l : list expr) (s : state) : option (list value * state) :=
  match l with
  | [] => Some ([], s)
  | a :: l' =>
      '(v, s1) ← eval a s;
      '(vs, s2) ← eval_list l' s1;
      Some (v :: vs, s2)
  end.
End Eval.

(** A program fragment of a translation unit: preprocessed, then evaluated
    with the [typedef] names of the unit in scope. *)
Definition run (tg : target)
    (libc : string → list value → gmap Z Byte.byte → option (value * gmap Z Byte.byte))
    (literal : string → Z) (T : tu) (e : expr) (s : state) : option (value * state) :=
  e' ← preprocess T e;
  eval tg libc literal (typedefs T) e' s.

(** The arguments of a call, preprocessed and evaluated in order. *)
Definition run_list (tg : target)
    (libc : string → list value → gmap Z Byte.byte → option (value * gmap Z Byte.byte))
    (literal : string → Z) (T : tu) (args : list expr) (s : state) :
    option (list value * state) :=
  args' ← mapM (preprocess T) args;
  eval_list tg libc literal (typedefs T) args' s.

(** Size and representation of the type a type name denotes in a
    translation unit. *)
Definition type_layout (tg : target) (T : tu) (t : ctype) : option (nat * repr) :=
  c ← canon (typedefs T) t; layout tg c.

(** ** The accessors by name *)

Inductive width : Type := KByte | KWord | KDword | KFloat | KPtr.
Inductive variant : Type := Base | Near | Far.

Definition width_name (k : width) : string :=
  match k with
  | KByte => "byte"
  | KWord => "word"
  | KDword => "dword"
  | KFloat => "float"
  | KPtr => "ptr"
  end.

Definition variant_suffix (v : variant) : string :=
  match v with
  | Base => ""
  | Near => "_near"
  | Far => "_far"
  end.

(** [pgm_read_<width>], [pgm_read_<width>_near], [pgm_read_<width>_far] *)
Definition accessor (k : width) (v : variant) : string :=
  "pgm_read_" +:+ width_name k +:+ variant_suffix v.

(** The type each base accessor casts its argument to a pointer to, as
    written in the header. *)
Definition accessed_type (k : width) : ctype :=
  match k with
  | KByte => TUChar
  | KWord => TUShort
  | KDword => TULong
  | KFloat => TFloat
  | KPtr => TPtr TVoid
  end.

(** The shape shared by the five base accessors: [( *(const t * )(e) )]. *)
Definition deref_as (t : ctype) (e : expr) : expr :=
  EParen (EDeref (ECast (TPtr (TConst t)) (EParen e))).

(** The shape shared by the [_P] macros: [g((p1), ..., (pn))], the macro's
    own parameters in their order.  [forwards_to M f g n] checks that the
    table defines [f] in this shape with [n] distinct parameters, and that
    [g] is not itself a macro. *)
Definition forwards_to (M : gmap string macro) (f g : string) (n : nat) : bool :=
  match M !! f with
  | Some (Macro (Some ps) (BExpr b)) =>
      bool_decide (b = ECall g (map par ps)) && bool_decide (M !! g = None)
      && bool_decide (NoDup ps) && bool_decide (length ps = n)
  | _ => false
  end.

(** ** What the specification says, in its own words *)

(** "Each [_P]-suffixed function becomes a direct call to its
    ordinary-memory counterpart": the names the specification lists, each
    with its counterpart in the C library and the number of arguments the
    counterpart takes. *)
Definition P_family : list (string * string * nat) :=
  [ ("memchr_P", "memchr", 3); ("memcmp_P", "memcmp", 3);
    ("memcpy_P", "memcpy", 3); ("memmem_P", "memmem", 4);
    ("memrchr_P", "memrchr", 3); ("strcat_P", "strcat", 2);
    ("strchr_P", "strchr", 2); ("strchrnul_P", "strchrnul", 2);
    ("strcmp_P", "strcmp", 2); ("strcpy_P", "strcpy", 2);
    ("strcasecmp_P", "strcasecmp", 2); ("strcasestr_P", "strcasestr", 2);
    ("strcspn_P", "strcspn", 2); ("strlcat_P", "strlcat", 3);
    ("strlcpy_P", "strlcpy", 3); ("strlen_P", "strlen", 1);
    ("strnlen_P", "strnlen", 2); ("strncmp_P", "strncmp", 3);
    ("strncasecmp_P", "strncasecmp", 3); ("strncat_P", "strncat", 3);
    ("strncpy_P", "strncpy", 3); ("strpbrk_P", "strpbrk", 2);
    ("strrchr_P", "strrchr", 2); ("strsep_P", "strsep", 2);
    ("strspn_P", "strspn", 2); ("strstr_P", "strstr", 2);
    ("strtok_P", "strtok", 2); ("strtok_rP", "strtok_r", 3) ]%nat.

(** "A direct dereference of the address reinterpreted as a pointer to the
    corresponding fixed-width type": 8, 16 and 32 bits unsigned for byte,
    word and double word. *)
Definition named_type (k : width) : ctype :=
  match k with
  | KByte => TExact false 1
  | KWord => TExact false 2
  | KDword => TExact false 4
  | KFloat => TFloat
  | KPtr => TPtr TVoid
  end.

(** The same with the double word as wide as the target's [unsigned long]. *)
Definition target_type (tg : target) (k : width) : ctype :=
  match k with
  | KDword => TExact false (sizeof_long tg)
  | _ => named_type k
  end.

(** A value as wide as the accessor of width [k] reads it on target [tg]. *)
Definition in_width (tg : target) (k : width) (r : value) : Prop :=
  match k, r with
  | KByte, VInt z => 0 ≤ z < 2 ^ 8
  | KWord, VInt z => 0 ≤ z < 2 ^ 16
  | KDword, VInt z => 0 ≤ z < 2 ^ (8 * Z.of_nat (sizeof_long tg))
  | KFloat, VFloat b => 0 ≤ b < 2 ^ 32
  | KPtr, VPtr TVoid a => 0 ≤ a < 2 ^ (8 * Z.of_nat (sizeof_ptr tg))
  | _, _ => False
  end.

(** "Integer type aliases of fixed widths (8/16/32/64-bit, signed and
    unsigned)": alias, standard name, signedness, width in bits. *)
Definition int_aliases : list (string * string * bool * nat) :=
  [ ("prog_int8_t", "int8_t", true, 8);    ("prog_uint8_t", "uint8_t", false, 8);
    ("prog_int16_t", "int16_t", true, 16); ("prog_uint16_t", "uint16_t", false, 16);
    ("prog_int32_t", "int32_t", true, 32); ("prog_uint32_t", "uint32_t", false, 32);
    ("prog_int64_t", "int64_t", true, 64); ("prog_uint64_t", "uint64_t", false, 64) ]%nat.

Definition repr_of_sign (sg : bool) : repr := if sg then RSigned else RUnsigned.

(** The ordinary-memory construct an operation of the header stands for: a
    C library function, a read of an object of some type, or the operand
    itself. *)
Inductive construct : Type :=
  | CLibc (g : string)
  | CRead (t : ctype)
  | COperand.

(** The construct each operation stands for, given the type [read k] that
    the accessors of width [k] are taken to read. *)
Definition substitutes_with (read : width → ctype) (name : string) : option construct :=
  if decide (name = "PSTR") then Some COperand
  else if decide (name = "_SFR_BYTE") then Some COperand
  else
    match list_find (λ '(f, _, _), f = name) P_family with
    | Some (_, (_, g, _)) => Some (CLibc g)
    | None =>
        match list_find (λ '(k, v), accessor k v = name)
                (k ← [KByte; KWord; KDword; KFloat; KPtr]; v ← [Base; Near; Far]; [(k, v)]) with
        | Some (_, (k, _)) => Some (CRead (read k))
        | None => None
        end
    end.

(** In the specification's words an accessor stands for the read of "the
    corresponding fixed-width type". *)
Definition substitutes_for (name : string) : option construct :=
  substitutes_with named_type name.

(** What the construct does with the values of the operands. *)
Definition construct_sem (tg : target)
    (libc : string → list value → gmap Z Byte.byte → option (value * gmap Z Byte.byte))
    (c : construct) (vs : list value) (s : state) : option (value * state) :=
  match c, vs with
  | CLibc g, _ => '(r, m') ← libc g vs (mem s); Some (r, State m' (vars s))
  | CRead t, [v] => a ← address v; r ← load tg t (mem s) a; Some (r, s)
  | COperand, [v] => Some (v, s)
  | _, _ => None
  end.

(** ** Expressions that expansion leaves alone *)

Fixpoint clean_type (M : gmap string macro) (t : ctype) : bool :=
  match t with
  | TNamed n =>
      match M !! n with
      | Some (Macro None (BType _)) => false
      | _ => true
      end
  | TConst t' | TPtr t' => clean_type M t'
  | _ => true
  end.

Fixpoint clean (M : gmap string macro) (e : expr) : bool :=
  match e with
  | EVal _ | EStr _ | EPostInc _ => true
  | EId x =>
      match M !! x with
      | Some (Macro None _) => false
      | _ => true
      end
  | EParen e' | EDeref e' => clean M e'
  | ECast t e' => clean_type M t && clean M e'
  | EAdd a b => clean M a && clean M b
  | ECall f args => bool_decide (M !! f = None) && forallb (clean M) args
  end.

(** ** A small C library and memory to run the header on *)

Fixpoint strlen_from (m : gmap Z Byte.byte) (a : Z) (fuel : nat) : option Z :=
  match fuel with
  | O => None
  | S k =>
      b ← m !! a;
      if decide (byte_val b = 0) then Some 0
      else Z.succ <$> strlen_from m (a + 1) k
  end.

Definition sample_libc (f : string) (vs : list value) (m : gmap Z Byte.byte) :
    option (value * gmap Z Byte.byte) :=
  match vs with
  | [v] =>
      if decide (f = "strlen")
      then a ← address v; n ← strlen_from m a 4096; Some (VInt n, m)
      else None
  | _ => None
  end.

Definition sample_literal (l : string) : Z := 4096.

(** Sixteen bytes from address 4096 on: "hi" with its terminator, then the
    bytes 1, 0, 0, 0, 1, 0, 0, 0 from address 4104 on. *)
Definition sample_mem : gmap Z Byte.byte :=
  list_to_map
    [ (4096, Byte.x68); (4097, Byte.x69); (4098, Byte.x00); (4099, Byte.x00);
      (4100, Byte.x00); (4101, Byte.x00); (4102, Byte.x00); (4103, Byte.x00);
      (4104, Byte.x01); (4105, Byte.x00); (4106, Byte.x00); (4107, Byte.x00);
      (4108, Byte.x01); (4109, Byte.x00); (4110, Byte.x00); (4111, Byte.x00) ].

Definition sample_state : state :=
  State sample_mem {[ "p" := VPtr TChar 4096 ]}.

Definition lp64 : target := Target LP64 LittleEndian true.
Definition ilp32 : target := Target ILP32 LittleEndian false.
Definition avr : target := Target AVR LittleEndian true.

(** ** Reading the header as a whole *)

(** The identifiers an expression mentions as operands, from left to right
    (the callee of a call is not an operand). *)
Fixpoint ids (e : expr) : list string :=
  match e with
  | EId x | EPostInc x => [x]
  | EParen e' | EDeref e' | ECast _ e' => ids e'
  | EAdd a b => ids a ++ ids b
  | ECall _ args => flat_map ids args
  | EVal _ | EStr _ => []
  end.

(** The names a file defines and the names it declares, in file order. *)
Definition defined_by (ls : list line) : list string :=
  flat_map (λ l, match l with Define n _ => [n] | _ => [] end) ls.





(** Nothing but [#define], [typedef] and [#endif] among the lines. *)
Definition declarations_only (ls : list line) : bool :=
  forallb (λ l, match l with Ifndef _ | Include _ => false | _ => true end) ls.

(** The [prog_] names whose objects an accessor reads whole: the alias and
    the accessor's width. *)
Definition accessor_aliases : list (string * width) :=
  [ ("prog_uchar", KByte); ("prog_uint8_t", KByte);
    ("prog_uint16_t", KWord); ("prog_uint32_t", KDword) ].

(** * Properties *)

(** Induction on expressions, with the arguments of a call covered. *)
Lemma expr_ind (P : expr → Prop)
  (HVal : ∀ v, P (EVal v))
  (HStr : ∀ s, P (EStr s))
  (HId : ∀ x, P (EId x))
  (HParen : ∀ e, P e → P (EParen e))
  (HDeref : ∀ e, P e → P (EDeref e))
  (HCast : ∀ t e, P e → P (ECast t e))
  (HAdd : ∀ a b, P a → P b → P (EAdd a b))
  (HPostInc : ∀ x, P (EPostInc x))
  (HCall : ∀ f args, Forall P args → P (ECall f args)) :
  ∀ e, P e.
Proof.
  fix IH 1. intros [v|s|x|e|e|t e|a b|x|f args].
  - apply HVal.
  - apply HStr.
  - apply HId.
  - apply HParen, IH.
  - apply HDeref, IH.
  - apply HCast, IH.
  - apply HAdd; apply IH.
  - apply HPostInc.
  - apply HCall. induction args as [|a args IHargs]; constructor.
    + apply IH.
    + apply IHargs.
Qed.

(** ** Macro expansion over an arbitrary table *)

Section Expansion.
Variable M : gmap string macro.

Lemma expand_type_eq d t :
  expand_type M (S d) t =
  match t with
  | TNamed n =>
      match M !! n with
      | Some (Macro None (BType b)) => expand_type M d b
      | _ => Some t
      end
  | TConst t' => TConst <$> expand_type M (S d) t'
  | TPtr t' => TPtr <$> expand_type M (S d) t'
  | _ => Some t
  end.
Proof. destruct t; reflexivity. Qed.

Lemma expand_eq d e :
  expand M (S d) e =
  match e with
  | EVal _ | EStr _ | EPostInc _ => Some e
  | EId x =>
      match M !! x with
      | Some (Macro None (BExpr b)) => expand M d b
      | Some (Macro None _) => None
      | _ => Some e
      end
  | EParen e' => EParen <$> expand M (S d) e'
  | EDeref e' => EDeref <$> expand M (S d) e'
  | ECast t e' => t' ← expand_type M (S d) t; ECast t' <$> expand M (S d) e'
  | EAdd a b => a' ← expand M (S d) a; b' ← expand M (S d) b; Some (EAdd a' b')
  | ECall f args =>
      args' ← mapM (expand M (S d)) args;
      match M !! f with
      | None => Some (ECall f args')
      | Some (Macro (Some ps) (BExpr b)) =>
          if decide (length ps = length args')
          then expand M d (subst (zip ps args') b)
          else None
      | Some _ => None
      end
  end.
Proof. destruct e; reflexivity. Qed.

Lemma clean_call f args :
  clean M (ECall f args) = bool_decide (M !! f = None) && forallb (clean M) args.
Proof. reflexivity. Qed.

Lemma expand_type_stable t d :
  clean_type M t = true → expand_type M (S d) t = Some t.
Proof.
  induction t as [| | | | | | | n | t IH | t IH]; intros Hc;
    rewrite expand_type_eq; try done.
  - simpl in Hc. destruct (M !! n) as [[[ps|] [|b|b]]|]; done.
  - rewrite IH; done.
  - rewrite IH; done.
Qed.

Lemma expand_type_clean d : ∀ t t',
  expand_type M d t = Some t' → clean_type M t' = true.
Proof.
  induction d as [|d IHd]; [done|].
  induction t as [| | | | | | | n | t IH | t IH]; intros t';
    rewrite expand_type_eq; intros Ht; simplify_option_eq; try done.
  - destruct (M !! n) as [[[ps|] [|b|b]]|] eqn:Hn;
      simplify_eq; simpl; rewrite ?Hn; eauto.
  - simpl. eauto.
  - simpl. eauto.
Qed.

Lemma expand_stable e : ∀ d, clean M e = true → expand M (S d) e = Some e.
Proof.
  induction e as [v|s|x|e IH|e IH|t e IH|a b IHa IHb|x|f args IH]
    using expr_ind; intros d Hc; rewrite expand_eq; try done.
  - simpl in Hc. destruct (M !! x) as [[[ps|] b]|]; done.
  - simpl in Hc. rewrite IH; done.
  - simpl in Hc. rewrite IH; done.
  - simpl in Hc. apply andb_true_iff in Hc as [Ht He].
    rewrite expand_type_stable, IH; done.
  - simpl in Hc. apply andb_true_iff in Hc as [Ha Hb].
    rewrite IHa, IHb; done.
  - rewrite clean_call in Hc. apply andb_true_iff in Hc as [Hf Hargs].
    apply bool_decide_eq_true in Hf.
    assert (mapM (expand M (S d)) args = Some args) as ->.
    { apply mapM_Some. rewrite forallb_forall in Hargs.
      induction IH as [|a args Ha _ IHargs]; constructor.
      - apply Ha, Hargs. by left.
      - apply IHargs. intros y Hy. apply Hargs. by right. }
    simpl. by rewrite Hf.
Qed.

Lemma expand_clean d : ∀ e e', expand M d e = Some e' → clean M e' = true.
Proof.
  induction d as [|d IHd]; [done|].
  induction e as [v|s|x|e IH|e IH|t e IH|a b IHa IHb|x|f args IH]
    using expr_ind; intros e'; rewrite expand_eq; intros He.
  - by simplify_eq.
  - by simplify_eq.
  - destruct (M !! x) as [[[ps|] [|b|b]]|] eqn:Hx;
      simplify_eq; simpl; rewrite ?Hx; eauto.
  - simplify_option_eq. simpl. eauto.
  - simplify_option_eq. simpl. eauto.
  - destruct (expand_type M (S d) t) as [t'|] eqn:Ht; [|done].
    destruct (expand M (S d) e) as [e1|] eqn:He1; [|done].
    injection He as <-. simpl. apply andb_true_iff. split.
    + exact (expand_type_clean _ _ _ Ht).
    + eauto.
  - simplify_option_eq. simpl. apply andb_true_iff. eauto.
  - by simplify_eq.
  - destruct (mapM (expand M (S d)) args) as [args'|] eqn:Hargs; [|done].
    simpl in He.
    destruct (M !! f) as [[[ps|] [|b|b]]|] eqn:Hf; try done.
    + case_decide; [|done]. eauto.
    + simplify_eq. rewrite clean_call. apply andb_true_iff. split.
      * by apply bool_decide_eq_true.
      * apply mapM_Some in Hargs. rewrite forallb_forall.
        intros y Hy. rewrite <- list_elem_of_In in Hy.
        clear Hf. revert IH.
        induction Hargs as [|a a' args args' Ha _ IHF]; intros IH;
          [by apply elem_of_nil in Hy|].
        inversion IH as [|? ? IHa IHargs]; subst.
        apply elem_of_cons in Hy as [->|Hy]; eauto.
Qed.
End Expansion.

Section Calls.
Variable M : gmap string macro.

Lemma expand_macro_call f ps b d args :
  M !! f = Some (function_like ps b) →
  expand M (S d) (ECall f args) =
  args' ← mapM (expand M (S d)) args;
  if decide (length ps = length args')
  then expand M d (subst (zip ps args') b) else None.
Proof. intros Hf. rewrite expand_eq, Hf. reflexivity. Qed.

Lemma expand_plain_call f d args :
  M !! f = None →
  expand M (S d) (ECall f args) = ECall f <$> mapM (expand M (S d)) args.
Proof.
  intros Hf. rewrite expand_eq, Hf.
  by destruct (mapM (expand M (S d)) args).
Qed.

Lemma mapM_expand_clean d args args' :
  mapM (expand M d) args = Some args' → forallb (clean M) args' = true.
Proof.
  intros H. apply mapM_Some in H. rewrite forallb_forall. intros y Hy.
  rewrite <- list_elem_of_In in Hy.
  induction H as [|a a' args args' Ha _ IH]; [by apply elem_of_nil in Hy|].
  apply elem_of_cons in Hy as [->|Hy]; [|by auto].
  by eapply expand_clean.
Qed.

Lemma assoc_zip ps : ∀ args i p a,
  NoDup ps → ps !! i = Some p → args !! i = Some a →
  assoc p (zip ps args) = Some a.
Proof.
  induction ps as [|q ps IH]; intros [|b args] [|i] p a Hnd Hp Ha;
    simplify_eq/=; try done.
  - by rewrite decide_True.
  - pose proof (NoDup_cons_1_1 _ _ Hnd) as Hq.
    apply NoDup_cons_1_2 in Hnd.
    rewrite decide_False; [by eauto|].
    intros ->. apply Hq. by eapply list_elem_of_lookup_2.
Qed.

Lemma subst_pars ps args :
  NoDup ps → length ps = length args →
  map (subst (zip ps args)) (map par ps) = map EParen args.
Proof.
  intros Hnd Hlen. apply list_eq. intros i.
  rewrite !list_lookup_fmap.
  destruct (ps !! i) as [p|] eqn:Hp, (args !! i) as [a|] eqn:Ha; simpl.
  - by rewrite (assoc_zip ps args i p a).
  - apply lookup_lt_Some in Hp. apply lookup_ge_None in Ha. lia.
  - apply lookup_lt_Some in Ha. apply lookup_ge_None in Hp. lia.
  - done.
Qed.

Lemma bind_Some {A B} (x : A) (k : A → option B) : Some x ≫= k = k x.
Proof. reflexivity. Qed.

Lemma mapM_singleton {A B} (f : A → option B) (a : A) :
  mapM f [a] = a' ← f a; Some [a'].
Proof. simpl. by destruct (f a). Qed.

Lemma subst_call σ f l : subst σ (ECall f l) = ECall f (map (subst σ) l).
Proof. reflexivity. Qed.

(** A macro of the forwarding shape expands to the plain call on the
    parenthesised, expanded arguments. *)
Lemma expand_forward f g ps d args :
  M !! f = Some (function_like ps (ECall g (map par ps))) →
  M !! g = None → NoDup ps → length args = length ps →
  expand M (S (S d)) (ECall f args) =
  args' ← mapM (expand M (S (S d))) args; Some (ECall g (map EParen args')).
Proof.
  intros Hf Hg Hnd Hlen. rewrite (expand_macro_call f ps _ _ _ Hf).
  destruct (mapM (expand M (S (S d))) args) as [args'|] eqn:Hargs; [|done].
  rewrite !bind_Some. pose proof (length_mapM _ _ _ Hargs) as Hlen'.
  rewrite decide_True by congruence.
  rewrite subst_call, subst_pars by (done || congruence).
  apply expand_stable. rewrite clean_call.
  apply andb_true_iff. split; [by apply bool_decide_eq_true|].
  apply mapM_expand_clean in Hargs. rewrite forallb_forall in Hargs.
  rewrite forallb_forall. intros y [a [<- Ha]]%in_map_iff. simpl. auto.
Qed.

Lemma forwards_to_spec f g n :
  forwards_to M f g n = true →
  ∃ ps, M !! f = Some (function_like ps (ECall g (map par ps)))
        ∧ M !! g = None ∧ NoDup ps ∧ length ps = n.
Proof.
  unfold forwards_to. destruct (M !! f) as [[[ps|] [|b|b]]|]; try done.
  rewrite !andb_true_iff, !bool_decide_eq_true.
  intros [[[-> Hg] Hnd] Hn]. by exists ps.
Qed.

(** A macro that hands its argument to another macro. *)
Lemma expand_alias f g p d a :
  M !! f = Some (function_like [p] (ECall g [EId p])) →
  expand M (S d) (ECall f [a]) =
  a' ← expand M (S d) a; expand M d (ECall g [a']).
Proof.
  intros Hf. rewrite (expand_macro_call f [p] _ _ _ Hf), mapM_singleton.
  destruct (expand M (S d) a) as [a'|]; [|done].
  rewrite !bind_Some, decide_True by done.
  rewrite subst_call. simpl. by rewrite decide_True.
Qed.

(** A macro whose body is its parenthesised parameter. *)
Lemma expand_operand f p d a :
  M !! f = Some (function_like [p] (par p)) →
  expand M (S (S d)) (ECall f [a]) = EParen <$> expand M (S (S d)) a.
Proof.
  intros Hf. rewrite (expand_macro_call f [p] _ _ _ Hf), mapM_singleton.
  destruct (expand M (S (S d)) a) as [a'|] eqn:Ha; [|done].
  rewrite !bind_Some, decide_True by done.
  replace (subst (zip [p] [a']) (par p)) with (EParen a')
    by (simpl; by rewrite decide_True).
  apply expand_stable. simpl. by eapply expand_clean.
Qed.

(** A macro of the accessor shape. *)
Lemma expand_deref f p t d a :
  M !! f = Some (function_like [p] (deref_as t (EId p))) →
  clean_type M t = true →
  expand M (S (S d)) (ECall f [a]) = deref_as t <$> expand M (S (S d)) a.
Proof.
  intros Hf Ht. rewrite (expand_macro_call f [p] _ _ _ Hf), mapM_singleton.
  destruct (expand M (S (S d)) a) as [a'|] eqn:Ha; [|done].
  rewrite !bind_Some, decide_True by done.
  replace (subst (zip [p] [a']) (deref_as t (EId p))) with (deref_as t a')
    by (simpl; by rewrite decide_True).
  apply expand_stable. simpl. rewrite Ht. by eapply expand_clean.
Qed.
End Calls.

(** ** Evaluation *)

Section EvalFacts.
Variable tg : target.
Variable libc : string → list value → gmap Z Byte.byte → option (value * gmap Z Byte.byte).
Variable literal : string → Z.
Variable td : gmap string ctype.

Local Abbreviation eval := (eval tg libc literal td).
Local Abbreviation eval_list := (eval_list tg libc literal td).

Lemma eval_call f args s :
  eval (ECall f args) s =
  '(vs, s1) ← eval_list args s;
  '(r, m') ← libc f vs (mem s1);
  Some (r, State m' (vars s1)).
Proof. reflexivity. Qed.

(** Parentheses around the arguments change nothing. *)
Lemma eval_list_parens args : ∀ s,
  eval_list (map EParen args) s = eval_list args s.
Proof.
  induction args as [|a args IH]; intros s; [done|].
  simpl. destruct (eval a s) as [[v s1]|]; [|done].
  simpl. by rewrite IH.
Qed.

Lemma load_const t m a : load tg (TConst t) m a = load tg t m a.
Proof. reflexivity. Qed.

(** [*(const t * )(e)] reads an object of type [t] at the address [e]
    evaluates to, the very address. *)
Lemma eval_deref_as t e s :
  canon td t = Some t →
  eval (deref_as t e) s =
  '(v, s1) ← eval e s;
  a ← address v;
  r ← load tg t (mem s1) a;
  Some (r, s1).
Proof.
  intros Ht. simpl. destruct (eval e s) as [[v s1]|]; [|done]. simpl.
  unfold cast. simpl. rewrite Ht. simpl.
  destruct (address v) as [a|]; [|done]. simpl.
  rewrite load_const. by destruct (load tg t (mem s1) a).
Qed.

Lemma eval_deref_cast t e s :
  canon td t = Some t →
  eval (EDeref (ECast (TPtr t) e)) s =
  '(v, s1) ← eval e s;
  a ← address v;
  r ← load tg t (mem s1) a;
  Some (r, s1).
Proof.
  intros Ht. simpl. destruct (eval e s) as [[v s1]|]; [|done]. simpl.
  unfold cast. simpl. rewrite Ht. simpl.
  destruct (address v) as [a|]; [|done]. simpl.
  by destruct (load tg t (mem s1) a).
Qed.
End EvalFacts.

(** Reading one [unsigned char] is reading the byte that is stored. *)
Lemma load_uchar tg m a :
  load tg TUChar m a = b ← m !! a; Some (VInt (byte_val b)).
Proof.
  unfold load, load_bytes. simpl. rewrite Z.add_0_r.
  destruct (m !! a) as [b|]; [|done]. simpl.
  unfold decode, unsigned_of. destruct (order tg); simpl;
    by rewrite Z.mul_0_r, Z.add_0_r.
Qed.

(** ** The table the header builds *)

Lemma tu0_depth : expansion_depth (macros tu0) = 49%nat.
Proof. vm_compute. reflexivity. Qed.

Lemma tu0_P_family :
  forallb (λ '(f, g, n), forwards_to (macros tu0) f g n) P_family = true.
Proof. vm_compute. reflexivity. Qed.

Lemma tu0_base k :
  macros tu0 !! accessor k Base =
  Some (function_like ["addr"] (deref_as (accessed_type k) (EId "addr"))).
Proof. destruct k; vm_compute; reflexivity. Qed.

Lemma tu0_near_far k v :
  v ≠ Base →
  macros tu0 !! accessor k v =
  Some (function_like ["addr"] (ECall (accessor k Base) [EId "addr"])).
Proof. intros Hv. destruct v; [done| |]; destruct k; vm_compute; reflexivity. Qed.

Lemma tu0_accessed_clean k : clean_type (macros tu0) (accessed_type k) = true.
Proof. destruct k; vm_compute; reflexivity. Qed.

Lemma tu0_accessed_canon k :
  canon (typedefs tu0) (accessed_type k) = Some (accessed_type k).
Proof. destruct k; vm_compute; reflexivity. Qed.

Lemma tu0_PSTR : macros tu0 !! "PSTR" = Some PSTR.
Proof. vm_compute. reflexivity. Qed.

Lemma tu0_SFR_BYTE : macros tu0 !! "_SFR_BYTE" = Some _SFR_BYTE.
Proof. vm_compute. reflexivity. Qed.

Lemma P_family_forwards f g n :
  (f, g, n) ∈ P_family →
  ∃ ps, macros tu0 !! f = Some (function_like ps (ECall g (map par ps)))
        ∧ macros tu0 !! g = None ∧ NoDup ps ∧ length ps = n.
Proof.
  intros Hin. apply forwards_to_spec.
  pose proof tu0_P_family as Hall. rewrite forallb_forall in Hall.
  apply list_elem_of_In in Hin. exact (Hall _ Hin).
Qed.

(** The function-like macros of the header are the [_P] family, the fifteen
    accessors and the two identity macros. *)
Lemma tu0_function_like name ps b :
  macros tu0 !! name = Some (function_like ps b) →
  (∃ g, (name, g, length ps) ∈ P_family)
  ∨ (∃ k v, name = accessor k v ∧ length ps = 1%nat)
  ∨ (name = "PSTR" ∧ ps = ["str"] ∧ b = par "str")
  ∨ (name = "_SFR_BYTE" ∧ ps = ["n"] ∧ b = par "n").
Proof.
  intros H. apply elem_of_map_to_list in H.
  let L := eval vm_compute in (map_to_list (macros tu0)) in
  assert (map_to_list (macros tu0) = L) as HL by (vm_compute; reflexivity).
  rewrite HL in H. clear HL.
  repeat (apply elem_of_cons in H as [H|H];
    [ first
        [ discriminate H
        | injection H as -> -> ->;
          first
            [ solve [ left; eexists; unfold P_family; simpl length;
                      repeat first [apply list_elem_of_here | apply list_elem_of_further] ]
            | solve [ right; left;
                      (exists KByte + exists KWord + exists KDword + exists KFloat + exists KPtr);
                      (exists Base + exists Near + exists Far);
                      split; reflexivity ]
            | solve [ right; right; left; repeat split; reflexivity ]
            | solve [ right; right; right; repeat split; reflexivity ] ] ]
    | ]).
  by apply elem_of_nil in H.
Qed.

(** The object-like macros of the header have no expression body, and the
    one with a type body, [PGM_P], is replaced by a type without macros. *)
Lemma tu0_object_like name b :
  macros tu0 !! name = Some (Macro None b) →
  b = BEmpty ∨ ∃ t, b = BType t ∧ clean_type (macros tu0) t = true.
Proof.
  intros H. apply elem_of_map_to_list in H.
  let L := eval vm_compute in (map_to_list (macros tu0)) in
  assert (map_to_list (macros tu0) = L) as HL by (vm_compute; reflexivity).
  rewrite HL in H. clear HL.
  repeat (apply elem_of_cons in H as [H|H];
    [ first
        [ discriminate H
        | injection H as -> ->;
          first [ solve [left; reflexivity]
                | solve [right; eexists; split; [reflexivity | vm_compute; reflexivity]] ] ]
    | ]).
  by apply elem_of_nil in H.
Qed.

(** Replacements in this table nest at most two deep: from depth 3 on, the
    bound plays no part in what expansion returns. *)
Lemma tu0_expand_type_depth t : ∀ d,
  expand_type (macros tu0) (S (S d)) t = expand_type (macros tu0) 2 t.
Proof.
  induction t as [| | | | | | | n | t IH | t IH]; intros d;
    rewrite (expand_type_eq _ (S d)), (expand_type_eq _ 1); try reflexivity.
  - destruct (macros tu0 !! n) as [[[ps|] [|b|b]]|] eqn:Hn; try reflexivity.
    destruct (tu0_object_like _ _ Hn) as [?|(t & [= <-] & Ht)]; [done|].
    by rewrite !expand_type_stable.
  - by rewrite IH.
  - by rewrite IH.
Qed.

Lemma tu0_expand_depth e : ∀ d,
  expand (macros tu0) (S (S (S d))) e = expand (macros tu0) 3 e.
Proof.
  induction e as [v|l|x|e IH|e IH|t e IH|a b IHa IHb|x|f args IH]
    using expr_ind; intros d;
    rewrite (expand_eq _ (S (S d))), (expand_eq _ 2); try reflexivity.
  - destruct (macros tu0 !! x) as [[[ps|] [|b|b]]|] eqn:Hx; try reflexivity.
    by destruct (tu0_object_like _ _ Hx) as [?|(t & ? & _)].
  - by rewrite IH.
  - by rewrite IH.
  - by rewrite IH, (tu0_expand_type_depth t (S d)), (tu0_expand_type_depth t 1).
  - by rewrite IHa, IHb.
  - assert (mapM (expand (macros tu0) (S (S (S d)))) args =
            mapM (expand (macros tu0) 3) args) as ->.
    { apply Forall_mapM_ext. eapply Forall_impl; [|exact IH]. auto. }
    destruct (mapM (expand (macros tu0) 3) args) as [args'|] eqn:Hargs; [|done].
    rewrite !bind_Some. apply mapM_expand_clean in Hargs.
    destruct (macros tu0 !! f) as [[[ps|] [|b|b]]|] eqn:Hf; try reflexivity.
    case_decide as Hlen; [|done].
    assert (∀ e', clean (macros tu0) e' = true →
                  expand (macros tu0) (S (S d)) e' = expand (macros tu0) 2 e')
      as Hstable by (intros e' He'; by rewrite !expand_stable).
    destruct (tu0_function_like f ps b Hf)
      as [[g Hg]|[(k & v & -> & Hps)|[(-> & -> & ->)|(-> & -> & ->)]]].
    + destruct (P_family_forwards _ _ _ Hg) as (ps' & Hf' & Hg' & Hnd & _).
      rewrite Hf in Hf'. injection Hf' as <- ->.
      rewrite subst_call, subst_pars by done.
      apply Hstable. rewrite clean_call.
      apply andb_true_iff. split; [by apply bool_decide_eq_true|].
      rewrite forallb_forall in Hargs. rewrite forallb_forall.
      intros y [a [<- Ha]]%in_map_iff. simpl. auto.
    + assert (v = Base ∨ v ≠ Base) as [->|Hv]
      by (destruct v; [left; reflexivity | right; discriminate | right; discriminate]).
      * rewrite tu0_base in Hf. injection Hf as <- <-.
        destruct args' as [|a' [|? ?]]; try discriminate Hlen.
        replace (subst (zip ["addr"] [a']) (deref_as (accessed_type k) (EId "addr")))
          with (deref_as (accessed_type k) a') by reflexivity.
        apply Hstable. simpl. rewrite tu0_accessed_clean.
        simpl in Hargs. by destruct (clean (macros tu0) a').
      * rewrite (tu0_near_far k v Hv) in Hf. injection Hf as <- <-.
        destruct args' as [|a' [|? ?]]; try discriminate Hlen.
        replace (subst (zip ["addr"] [a']) (ECall (accessor k Base) [EId "addr"]))
          with (ECall (accessor k Base) [a']) by reflexivity.
        rewrite !(expand_deref _ _ "addr" (accessed_type k))
          by (apply tu0_base || apply tu0_accessed_clean).
        f_equal. apply (Hstable a').
        simpl in Hargs. by destruct (clean (macros tu0) a').
    + destruct args' as [|a' [|? ?]]; try discriminate Hlen.
      replace (subst (zip ["str"] [a']) (par "str")) with (EParen a')
        by reflexivity.
      apply Hstable. simpl. simpl in Hargs. by destruct (clean (macros tu0) a').
    + destruct args' as [|a' [|? ?]]; try discriminate Hlen.
      replace (subst (zip ["n"] [a']) (par "n")) with (EParen a')
        by reflexivity.
      apply Hstable. simpl. simpl in Hargs. by destruct (clean (macros tu0) a').
Qed.

(** The bound the translation unit sets is never what makes preprocessing
    fail. *)
Lemma tu0_preprocess_depth e d :
  preprocess tu0 e = expand (macros tu0) (S (S (S d))) e.
Proof.
  unfold preprocess. rewrite tu0_depth.
  by rewrite (tu0_expand_depth e 46), (tu0_expand_depth e d).
Qed.

(** ** Running the operations of the header *)

Section Run.
Variable tg : target.
Variable libc : string → list value → gmap Z Byte.byte → option (value * gmap Z Byte.byte).
Variable literal : string → Z.

Local Abbreviation run0 := (run tg libc literal tu0).
Local Abbreviation run_list0 := (run_list tg libc literal tu0).

Lemma preprocess_eq e : preprocess tu0 e = expand (macros tu0) 49 e.
Proof. unfold preprocess. by rewrite tu0_depth. Qed.

Lemma preprocess_list_eq args :
  mapM (preprocess tu0) args = mapM (expand (macros tu0) 49) args.
Proof. apply mapM_ext, preprocess_eq. Qed.

Lemma run_list_singleton e s :
  run_list0 [e] s = '(v, s1) ← run0 e s; Some ([v], s1).
Proof.
  unfold run_list, run.
  rewrite mapM_singleton.
  destruct (preprocess tu0 e) as [e'|]; [|done]. simpl.
  by destruct (eval tg libc literal (typedefs tu0) e' s) as [[v s1]|].
Qed.

(** A call of a function that is not a macro. *)
Lemma run_plain g args s :
  macros tu0 !! g = None →
  run0 (ECall g args) s =
  '(vs, s1) ← run_list0 args s;
  '(r, m') ← libc g vs (mem s1);
  Some (r, State m' (vars s1)).
Proof.
  intros Hg. unfold run, run_list.
  rewrite preprocess_eq, preprocess_list_eq, (expand_plain_call _ _ _ _ Hg).
  destruct (mapM (expand (macros tu0) 49) args) as [args'|]; [|done].
  reflexivity.
Qed.

(** A call of a [_P] macro. *)
Lemma run_P f g n args s :
  (f, g, n) ∈ P_family → length args = n →
  run0 (ECall f args) s =
  '(vs, s1) ← run_list0 args s;
  '(r, m') ← libc g vs (mem s1);
  Some (r, State m' (vars s1)).
Proof.
  intros (ps & Hf & Hg & Hnd & Hn)%P_family_forwards Hlen.
  unfold run, run_list.
  rewrite preprocess_eq, preprocess_list_eq.
  rewrite (expand_forward _ f g ps _ args Hf Hg Hnd) by congruence.
  destruct (mapM (expand (macros tu0) 49) args) as [args'|]; [|done].
  rewrite !bind_Some, eval_call, eval_list_parens. reflexivity.
Qed.

(** The expansion of an accessor, whichever variant. *)
Lemma preprocess_accessor k v e :
  preprocess tu0 (ECall (accessor k v) [e]) =
  deref_as (accessed_type k) <$> preprocess tu0 e.
Proof.
  rewrite !preprocess_eq.
  assert (v = Base ∨ v ≠ Base) as [->|Hv]
      by (destruct v; [left; reflexivity | right; discriminate | right; discriminate]).
  - apply (expand_deref _ _ "addr"); [apply tu0_base | apply tu0_accessed_clean].
  - rewrite (expand_alias _ _ _ "addr" _ _ (tu0_near_far k v Hv)).
    destruct (expand (macros tu0) 49 e) as [e'|] eqn:He; [|done].
    rewrite bind_Some.
    rewrite (expand_deref _ _ "addr" (accessed_type k));
      [|apply tu0_base | apply tu0_accessed_clean].
    apply expand_clean in He. by rewrite expand_stable.
Qed.

Lemma run_accessor k v e s :
  run0 (ECall (accessor k v) [e]) s =
  '(x, s1) ← run0 e s;
  a ← address x;
  r ← load tg (accessed_type k) (mem s1) a;
  Some (r, s1).
Proof.
  unfold run. rewrite preprocess_accessor.
  destruct (preprocess tu0 e) as [e'|]; [|done]. simpl.
  apply (eval_deref_as tg libc literal (typedefs tu0)), tu0_accessed_canon.
Qed.

(** A call of a macro whose body is its parenthesised parameter. *)
Lemma run_operand f p e s :
  macros tu0 !! f = Some (function_like [p] (par p)) →
  preprocess tu0 (ECall f [e]) = EParen <$> preprocess tu0 e
  ∧ run0 (ECall f [e]) s = run0 e s.
Proof.
  intros Hf. unfold run. rewrite !preprocess_eq.
  rewrite (expand_operand _ _ _ _ _ Hf). split; [done|].
  by destruct (expand (macros tu0) 49 e).
Qed.
End Run.

(** ** The [_P] family *)

(** C1. For every [_P] function of the header and every argument list of the
    length its ordinary-memory counterpart takes, the call expands to a call
    of the counterpart on the same arguments, each in parentheses and in the
    same order, and running it gives the result of running the counterpart
    on these arguments: the same value, the same memory and variables
    afterwards, the same failure. *)
Theorem P_functions_forward tg libc literal f g n args s :
  (f, g, n) ∈ P_family → length args = n →
  preprocess tu0 (ECall f args) =
    (args' ← mapM (preprocess tu0) args; Some (ECall g (map EParen args')))
  ∧ run tg libc literal tu0 (ECall f args) s =
    run tg libc literal tu0 (ECall g args) s.
Proof.
  intros Hin Hlen. split.
  - destruct (P_family_forwards f g n Hin) as (ps & Hf & Hg & Hnd & Hn).
    rewrite preprocess_eq, preprocess_list_eq.
    apply (expand_forward _ f g ps _ args Hf Hg Hnd). congruence.
  - destruct (P_family_forwards f g n Hin) as (ps & Hf & Hg & Hnd & Hn).
    rewrite (run_P tg libc literal f g n args s Hin Hlen).
    by rewrite (run_plain tg libc literal g args s Hg).
Qed.

Lemma P_functions_forward_witness :
  (("strlen_P", "strlen", 1%nat) ∈ P_family ∧ length [EPostInc "p"] = 1%nat)
  ∧ run lp64 sample_libc sample_literal tu0 (ECall "strlen_P" [EPostInc "p"]) sample_state =
    run lp64 sample_libc sample_literal tu0 (ECall "strlen" [EPostInc "p"]) sample_state.
Proof.
  assert (("strlen_P", "strlen", 1%nat) ∈ P_family) as Hin
    by (apply list_elem_of_In; vm_compute; tauto).
  split; [split; [exact Hin | reflexivity]|].
  apply (P_functions_forward lp64 sample_libc sample_literal
           "strlen_P" "strlen" 1 [EPostInc "p"] sample_state Hin).
  reflexivity.
Defined.

(** ** The accessors *)

Lemma byte_val_range b : 0 ≤ byte_val b < 256.
Proof.
  unfold byte_val. pose proof (Byte.to_N_bounded b) as Hb. lia.
Qed.

Lemma le_combine_range bs : 0 ≤ le_combine bs < 256 ^ Z.of_nat (length bs).
Proof.
  induction bs as [|b bs IH]; [simpl; lia|].
  cbn [le_combine length]. rewrite Nat2Z.inj_succ, Z.pow_succ_r by lia.
  pose proof (byte_val_range b). lia.
Qed.

Lemma unsigned_of_range tg bs :
  0 ≤ unsigned_of tg bs < 2 ^ (8 * Z.of_nat (length bs)).
Proof.
  rewrite Z.pow_mul_r by lia. change (2 ^ 8) with 256.
  unfold unsigned_of. destruct (order tg).
  - apply le_combine_range.
  - rewrite <- (length_reverse bs). apply le_combine_range.
Qed.

Lemma load_bytes_length m a n bs : load_bytes m a n = Some bs → length bs = n.
Proof.
  unfold load_bytes. intros H. apply length_mapM in H.
  by rewrite length_seq in H.
Qed.

(** What an accessor's type loads lies within the accessor's width. *)
Lemma load_in_width tg k m a r :
  load tg (accessed_type k) m a = Some r → in_width tg k r.
Proof.
  unfold load. destruct k; simpl;
    (destruct (load_bytes m a _) as [bs|] eqn:Hbs; [|done]);
    apply load_bytes_length in Hbs; simpl; intros [= <-]; simpl;
    pose proof (unsigned_of_range tg bs) as Hr; rewrite Hbs in Hr; exact Hr.
Qed.

(** The layout of the type an accessor reads is that of an unsigned integer
    of the target's width for it, of a [float], of a pointer. *)
Lemma layout_accessed tg k :
  layout tg (accessed_type k) = layout tg (target_type tg k).
Proof. by destruct k. Qed.

Lemma load_accessed tg k m a :
  load tg (accessed_type k) m a = load tg (target_type tg k) m a.
Proof. unfold load. by rewrite layout_accessed. Qed.

Lemma tu0_target_canon tg k :
  canon (typedefs tu0) (target_type tg k) = Some (target_type tg k).
Proof. by destruct k. Qed.

Lemma tu0_target_clean tg k d :
  expand_type (macros tu0) (S d) (TPtr (target_type tg k)) =
  Some (TPtr (target_type tg k)).
Proof. apply expand_type_stable. by destruct k. Qed.

Lemma run_deref_cast tg libc literal k e s :
  run tg libc literal tu0 (EDeref (ECast (TPtr (target_type tg k)) e)) s =
  '(x, s1) ← run tg libc literal tu0 e s;
  a ← address x;
  r ← load tg (target_type tg k) (mem s1) a;
  Some (r, s1).
Proof.
  unfold run. rewrite !preprocess_eq.
  rewrite (expand_eq _ _ (EDeref _)), (expand_eq _ _ (ECast _ _)).
  rewrite tu0_target_clean, bind_Some.
  destruct (expand (macros tu0) 49 e) as [e'|]; [|done].
  cbn [fmap option_fmap option_map mbind option_bind].
  apply (eval_deref_cast tg libc literal (typedefs tu0)), tu0_target_canon.
Qed.

(** C3, as stated, fails: on an LP64 target [unsigned long] is eight bytes
    wide, so [pgm_read_dword] reads eight bytes where a 32-bit read takes
    four.  With the bytes 1,0,0,0,1,0,0,0 stored from address 4104 on, the
    accessor yields 2^32 + 1 and the 32-bit read yields 1. *)
Lemma pgm_read_dword_lp64_reads_64_bits :
  fst <$> run lp64 sample_libc sample_literal tu0
            (ECall "pgm_read_dword" [EVal (VInt 4104)]) sample_state
    = Some (VInt 4294967297)
  ∧ fst <$> run lp64 sample_libc sample_literal tu0
              (EDeref (ECast (TPtr (named_type KDword)) (EVal (VInt 4104)))) sample_state
    = Some (VInt 1)
  ∧ run lp64 sample_libc sample_literal tu0
      (ECall (accessor KDword Base) [EVal (VInt 4104)]) sample_state
    ≠ run lp64 sample_libc sample_literal tu0
        (EDeref (ECast (TPtr (named_type KDword)) (EVal (VInt 4104)))) sample_state.
Proof.
  split; [vm_compute; reflexivity|].
  split; [vm_compute; reflexivity|].
  vm_compute. discriminate.
Qed.

(** C3, amended.  Each accessor, whichever variant, dereferences its argument as a pointer
    to an unsigned integer of 8 bits (byte), of 16 bits (word), of the width
    of the target's [unsigned long] (dword), to a [float], to a pointer, and
    what it returns lies within that width; where [unsigned long] is four
    bytes wide (AVR, ILP32, LLP64) the type is the fixed-width type of the
    accessor's name. *)
Theorem pgm_read_width tg libc literal k v e s :
  run tg libc literal tu0 (ECall (accessor k v) [e]) s =
    run tg libc literal tu0 (EDeref (ECast (TPtr (target_type tg k)) e)) s
  ∧ (∀ r s', run tg libc literal tu0 (ECall (accessor k v) [e]) s = Some (r, s') →
             in_width tg k r)
  ∧ (sizeof_long tg = 4%nat →
     run tg libc literal tu0 (ECall (accessor k v) [e]) s =
       run tg libc literal tu0 (EDeref (ECast (TPtr (named_type k)) e)) s).
Proof.
  assert (run tg libc literal tu0 (ECall (accessor k v) [e]) s =
          run tg libc literal tu0 (EDeref (ECast (TPtr (target_type tg k)) e)) s)
    as Heq.
  { rewrite run_accessor, run_deref_cast.
    destruct (run tg libc literal tu0 e s) as [[x s1]|]; [|done]. simpl.
    destruct (address x) as [a|]; [|done]. simpl.
    by rewrite load_accessed. }
  split; [exact Heq|]. split.
  - intros r s' Hr. rewrite run_accessor in Hr.
    destruct (run tg libc literal tu0 e s) as [[x s1]|]; [|done]. simpl in Hr.
    destruct (address x) as [a|]; [|done]. simpl in Hr.
    destruct (load tg (accessed_type k) (mem s1) a) as [r0|] eqn:Hl; [|done].
    injection Hr as <- <-. by eapply load_in_width.
  - intros Hlong. rewrite Heq.
    destruct k; try reflexivity. unfold target_type. by rewrite Hlong.
Qed.

Lemma pgm_read_width_witness :
  sizeof_long ilp32 = 4%nat
  ∧ run ilp32 sample_libc sample_literal tu0
      (ECall (accessor KDword Base) [EVal (VInt 4104)]) sample_state =
    run ilp32 sample_libc sample_literal tu0
      (EDeref (ECast (TPtr (named_type KDword)) (EVal (VInt 4104)))) sample_state.
Proof.
  split; [reflexivity|].
  apply (proj2 (proj2 (pgm_read_width ilp32 sample_libc sample_literal KDword Base
                         (EVal (VInt 4104)) sample_state))).
  reflexivity.
Defined.

(** C2, as stated, fails for the double word: on an LP64 target
    [pgm_read_dword] returns the eight-byte [unsigned long] at the address,
    not the double word that is stored there.  With the bytes
    1,0,0,0,1,0,0,0 from address 4104 on, the double word stored at 4104
    is 1 and the accessor returns 2^32 + 1. *)
Lemma pgm_read_dword_lp64_is_not_the_stored_double_word :
  run lp64 sample_libc sample_literal tu0 (EVal (VInt 4104)) sample_state =
    Some (VInt 4104, sample_state)
  ∧ address (VInt 4104) = Some 4104
  ∧ load lp64 (named_type KDword) (mem sample_state) 4104 = Some (VInt 1)
  ∧ run lp64 sample_libc sample_literal tu0
      (ECall (accessor KDword Base) [EVal (VInt 4104)]) sample_state =
    Some (VInt 4294967297, sample_state)
  ∧ run lp64 sample_libc sample_literal tu0
      (ECall (accessor KDword Base) [EVal (VInt 4104)]) sample_state ≠
    (r ← load lp64 (named_type KDword) (mem sample_state) 4104;
     Some (r, sample_state)).
Proof.
  split; [vm_compute; reflexivity|].
  split; [reflexivity|].
  split; [vm_compute; reflexivity|].
  split; [vm_compute; reflexivity|].
  vm_compute. discriminate.
Qed.

(** C2, amended.  Whatever address the argument of a base accessor evaluates
    to, the accessor returns what is stored at that very address of ordinary
    memory, and fails where that read fails: the byte for [pgm_read_byte],
    the 16-bit word for [pgm_read_word], the [float] and the pointer for
    [pgm_read_float] and [pgm_read_ptr], and for [pgm_read_dword] the
    [unsigned long], which is the 32-bit double word where [unsigned long]
    is four bytes wide (AVR, ILP32, LLP64). *)
Theorem pgm_read_reads_ordinary_memory tg libc literal k e s v s1 a :
  run tg libc literal tu0 e s = Some (v, s1) → address v = Some a →
  run tg libc literal tu0 (ECall (accessor k Base) [e]) s =
    (r ← load tg (target_type tg k) (mem s1) a; Some (r, s1))
  ∧ run tg libc literal tu0 (ECall (accessor KByte Base) [e]) s =
    (b ← mem s1 !! a; Some (VInt (byte_val b), s1))
  ∧ (sizeof_long tg = 4%nat →
     run tg libc literal tu0 (ECall (accessor k Base) [e]) s =
       (r ← load tg (named_type k) (mem s1) a; Some (r, s1))).
Proof.
  intros He Ha.
  assert (∀ k', run tg libc literal tu0 (ECall (accessor k' Base) [e]) s =
                (r ← load tg (accessed_type k') (mem s1) a; Some (r, s1))) as Hrun.
  { intros k'. rewrite run_accessor, He. simpl. by rewrite Ha. }
  split; [by rewrite Hrun, load_accessed|]. split.
  - rewrite Hrun. change (accessed_type KByte) with TUChar.
    rewrite load_uchar. by destruct (mem s1 !! a).
  - intros Hlong. rewrite Hrun, load_accessed.
    destruct k; try reflexivity. unfold target_type. by rewrite Hlong.
Qed.

Lemma pgm_read_reads_ordinary_memory_witness :
  (run avr sample_libc sample_literal tu0 (EPostInc "p") sample_state =
     Some (VPtr TChar 4096,
           State sample_mem (<["p" := VPtr TChar 4097]> (vars sample_state)))
   ∧ address (VPtr TChar 4096) = Some 4096
   ∧ sizeof_long avr = 4%nat)
  ∧ run avr sample_libc sample_literal tu0
      (ECall (accessor KDword Base) [EPostInc "p"]) sample_state =
    Some (VInt 26984,
          State sample_mem (<["p" := VPtr TChar 4097]> (vars sample_state))).
Proof.
  assert (run avr sample_libc sample_literal tu0 (EPostInc "p") sample_state =
     Some (VPtr TChar 4096,
           State sample_mem (<["p" := VPtr TChar 4097]> (vars sample_state))))
    as He by (vm_compute; reflexivity).
  split; [split; [exact He | split; reflexivity]|].
  rewrite (proj2 (proj2 (pgm_read_reads_ordinary_memory avr sample_libc sample_literal
                           KDword (EPostInc "p") sample_state _ _ 4096 He eq_refl))
             eq_refl).
  vm_compute. reflexivity.
Defined.

(** C4. For every width, the [_near] and the [_far] accessor expand to the
    very expression the base accessor expands to, and so return what it
    returns. *)
Theorem near_far_collapse tg libc literal k v e s :
  preprocess tu0 (ECall (accessor k v) [e]) =
    preprocess tu0 (ECall (accessor k Base) [e])
  ∧ run tg libc literal tu0 (ECall (accessor k v) [e]) s =
    run tg libc literal tu0 (ECall (accessor k Base) [e]) s.
Proof.
  split.
  - by rewrite !preprocess_accessor.
  - by rewrite !run_accessor.
Qed.

(** ** The integer aliases *)

(** [typedef std alias;] makes [alias] denote what [std] denotes, and leaves
    [std] as it was. *)
Lemma declare_alias std alias c T :
  typedefs T !! std = Some c → alias ≠ std →
  typedefs (declare (TNamed std) alias T) !! alias = Some c
  ∧ typedefs (declare (TNamed std) alias T) !! std = Some c.
Proof.
  intros Hstd Hne. unfold declare. simpl. rewrite Hstd. simpl.
  by rewrite lookup_insert_eq, lookup_insert_ne.
Qed.

(** C5. Each of the eight [prog_] integer aliases denotes the very type its
    standard name denotes: the same size, 8, 16, 32 or 64 bits, and the same
    signedness, on every target. *)
Theorem prog_int_aliases tg alias std sg bits :
  (alias, std, sg, bits) ∈ int_aliases →
  canon (typedefs tu0) (TNamed alias) = canon (typedefs tu0) (TNamed std)
  ∧ type_layout tg tu0 (TNamed alias) = type_layout tg tu0 (TNamed std)
  ∧ type_layout tg tu0 (TNamed alias) = Some ((bits / 8)%nat, repr_of_sign sg).
Proof.
  intros Hin. unfold int_aliases in Hin.
  repeat (apply elem_of_cons in Hin as [Hin|Hin]; [simplify_eq|]);
    [..|by apply elem_of_nil in Hin];
    (split; [|split]); vm_compute; reflexivity.
Qed.

Lemma prog_int_aliases_witness :
  ("prog_int16_t", "int16_t", true, 16%nat) ∈ int_aliases
  ∧ type_layout avr tu0 (TNamed "prog_int16_t") = Some (2%nat, RSigned).
Proof.
  assert (("prog_int16_t", "int16_t", true, 16%nat) ∈ int_aliases) as Hin
    by (apply list_elem_of_In; vm_compute; tauto).
  split; [exact Hin|].
  exact (proj2 (proj2 (prog_int_aliases avr _ _ _ _ Hin))).
Defined.

(** ** The two identity macros *)

(** C7. [PSTR(str)] expands to [(str)] and evaluates to what [str] itself
    evaluates to; for a string literal this is the pointer to the literal. *)
Theorem PSTR_identity tg libc literal e s :
  preprocess tu0 (ECall "PSTR" [e]) = EParen <$> preprocess tu0 e
  ∧ run tg libc literal tu0 (ECall "PSTR" [e]) s = run tg libc literal tu0 e s
  ∧ ∀ l, run tg libc literal tu0 (ECall "PSTR" [EStr l]) s =
         Some (VPtr TChar (literal l), s).
Proof.
  destruct (run_operand tg libc literal "PSTR" "str" e s tu0_PSTR) as [Hp Hr].
  split; [exact Hp|]. split; [exact Hr|]. intros l.
  by rewrite (proj2 (run_operand tg libc literal "PSTR" "str" (EStr l) s tu0_PSTR)).
Qed.

(** C9. The header defines [_SFR_BYTE], with one parameter and the
    parenthesised parameter as its body: [_SFR_BYTE(n)] expands to [(n)] and
    evaluates to what [n] itself evaluates to. *)
Theorem SFR_BYTE_identity tg libc literal e s :
  macros tu0 !! "_SFR_BYTE" = Some (function_like ["n"] (EParen (EId "n")))
  ∧ preprocess tu0 (ECall "_SFR_BYTE" [e]) = EParen <$> preprocess tu0 e
  ∧ run tg libc literal tu0 (ECall "_SFR_BYTE" [e]) s = run tg libc literal tu0 e s.
Proof.
  split; [exact tu0_SFR_BYTE|].
  exact (run_operand tg libc literal "_SFR_BYTE" "n" e s tu0_SFR_BYTE).
Qed.

(** ** Reading changes nothing *)

(** C10. An accessor of any width and variant, applied to an address, leaves
    memory and variables as they were; what it returns depends on the memory
    alone, so that with the memory unchanged it returns the same again; and
    where the address is valid for the accessor's type, it does return. *)
Theorem pgm_read_pure tg libc literal k v x a s :
  address x = Some a →
  (∀ r s', run tg libc literal tu0 (ECall (accessor k v) [EVal x]) s = Some (r, s') →
           s' = s
           ∧ run tg libc literal tu0 (ECall (accessor k v) [EVal x]) s' = Some (r, s'))
  ∧ (∀ s2, mem s2 = mem s →
           fst <$> run tg libc literal tu0 (ECall (accessor k v) [EVal x]) s2 =
           fst <$> run tg libc literal tu0 (ECall (accessor k v) [EVal x]) s)
  ∧ (∀ r, load tg (accessed_type k) (mem s) a = Some r →
          run tg libc literal tu0 (ECall (accessor k v) [EVal x]) s = Some (r, s)).
Proof.
  intros Ha.
  assert (∀ s0, run tg libc literal tu0 (ECall (accessor k v) [EVal x]) s0 =
                (r ← load tg (accessed_type k) (mem s0) a; Some (r, s0))) as Hrun.
  { intros s0. rewrite run_accessor.
    replace (run tg libc literal tu0 (EVal x) s0) with (Some (x, s0))
      by (unfold run; by rewrite preprocess_eq).
    simpl. by rewrite Ha. }
  split; [|split].
  - intros r s' Hr. rewrite Hrun in Hr.
    destruct (load tg (accessed_type k) (mem s) a) as [r0|] eqn:Hl; [|done].
    simpl in Hr. injection Hr as <- <-. split; [done|].
    by rewrite Hrun, Hl.
  - intros s2 Hm. rewrite !Hrun, Hm.
    by destruct (load tg (accessed_type k) (mem s) a).
  - intros r Hl. by rewrite Hrun, Hl.
Qed.

Lemma pgm_read_pure_witness :
  address (VInt 4104) = Some 4104
  ∧ run ilp32 sample_libc sample_literal tu0
      (ECall (accessor KDword Far) [EVal (VInt 4104)]) sample_state =
    Some (VInt 1, sample_state).
Proof.
  split; [reflexivity|].
  apply (proj2 (proj2 (pgm_read_pure ilp32 sample_libc sample_literal KDword Far
                         (VInt 4104) 4104 sample_state eq_refl))).
  vm_compute. reflexivity.
Defined.

(** ** The include guard *)

Section IncludeGuard.
(** Whatever a system header does, it does not undefine the guard. *)
Variable sys : string → tu → tu.
Hypothesis sys_keeps_guard : ∀ h T,
is_Some (macros T !! "__PGMSPACE_H_") →
is_Some (macros (sys h T) !! "__PGMSPACE_H_").

Lemma define_keeps_guard n m T :
is_Some (macros T !! "__PGMSPACE_H_") →
is_Some (macros (define n m T) !! "__PGMSPACE_H_").
Proof.
intros HT. unfold define. simpl. apply lookup_insert_is_Some.
destruct (decide (n = "__PGMSPACE_H_")); auto.
Qed.

Lemma declare_keeps_macros t n T : macros (declare t n T) = macros T.
Proof. unfold declare. by destruct (canon (typedefs T) t). Qed.

Lemma process_keeps_guard ls : ∀ skip T,
is_Some (macros T !! "__PGMSPACE_H_") →
is_Some (macros (process sys ls skip T) !! "__PGMSPACE_H_").
Proof.
induction ls as [|l ls IH]; intros skip T HT; [done|].
destruct skip as [|k], l as [g| |h|n m|t n]; simpl; try (by apply IH).
- destruct (macros T !! g); by apply IH.
- apply IH. by apply sys_keeps_guard.
- apply IH. by apply define_keeps_guard.
- apply IH. by rewrite declare_keeps_macros.
Qed.

Lemma process_ifndef g rest T :
process sys (Ifndef g :: rest) 0 T =
match macros T !! g with
| Some _ => process sys rest 1 T
| None => process sys rest 0 T
end.
Proof. reflexivity. Qed.

Lemma process_define n m rest T :
process sys (Define n m :: rest) 0 T = process sys rest 0 (define n m T).
Proof. reflexivity. Qed.

(** With the guard defined the whole file is skipped. *)
Lemma include_skipped T :
is_Some (macros T !! "__PGMSPACE_H_") → include_pgmspace sys T = T.
Proof.
intros [m Hm]. unfold include_pgmspace, pgmspace_h.
cbn [process]. rewrite Hm. reflexivity.
Qed.

(** After an inclusion the guard is defined. *)
Lemma include_defines_guard T :
is_Some (macros (include_pgmspace sys T) !! "__PGMSPACE_H_").
Proof.
destruct (macros T !! "__PGMSPACE_H_") as [m|] eqn:Hm.
- rewrite include_skipped; rewrite Hm; eauto.
- unfold include_pgmspace, pgmspace_h.
  rewrite process_ifndef, Hm, process_define.
  apply process_keeps_guard.
  unfold define. simpl. rewrite lookup_insert_eq. eauto.
Qed.

(** C8. Including the header once more, any number of times, leaves the
  translation unit exactly as the first inclusion left it: no macro, no
  [typedef] and no diagnostic is added. *)
Theorem include_guard n T :
Nat.iter (S n) (include_pgmspace sys) T = include_pgmspace sys T
∧ diags (Nat.iter (S n) (include_pgmspace sys) T) = diags (include_pgmspace sys T).
Proof.
assert (Nat.iter (S n) (include_pgmspace sys) T = include_pgmspace sys T) as H.
{ induction n as [|n IH]; [done|].
  change (Nat.iter (S (S n)) (include_pgmspace sys) T)
    with (include_pgmspace sys (Nat.iter (S n) (include_pgmspace sys) T)).
  rewrite IH. apply include_skipped, include_defines_guard. }
by rewrite H.
Qed.
End IncludeGuard.

Lemma system_header_macros h T : macros (system_header h T) = macros T.
Proof.
  unfold system_header. destruct (decide (h = "inttypes.h")); [|done].
  generalize inttypes_h. intros l. revert T.
  induction l as [|d l IH]; intros T; [done|].
  simpl. rewrite IH. unfold declare_once. by destruct (typedefs T !! d.1).
Qed.

Lemma include_guard_witness :
  (∀ h T, is_Some (macros T !! "__PGMSPACE_H_") →
          is_Some (macros (system_header h T) !! "__PGMSPACE_H_"))
  ∧ include_pgmspace system_header (include_pgmspace system_header empty_tu) = tu0
  ∧ diags (include_pgmspace system_header (include_pgmspace system_header empty_tu)) = [].
Proof.
  assert (∀ h T, is_Some (macros T !! "__PGMSPACE_H_") →
                 is_Some (macros (system_header h T) !! "__PGMSPACE_H_")) as Hsys
    by (intros h T HT; by rewrite system_header_macros).
  split; [exact Hsys|].
  destruct (include_guard system_header Hsys 1 empty_tu) as [Hst Hd].
  split; [exact Hst|].
  simpl in Hd. rewrite Hd. vm_compute. reflexivity.
Defined.

(** Without the guard the second reading of the same lines is diagnosed:
    the guard is what keeps re-inclusion silent. *)
Example reinclusion_without_guard :
  diags (process system_header (tail pgmspace_h) 0
           (process system_header (tail pgmspace_h) 0 empty_tu)) =
  TypedefRedefined <$>
    [ "prog_void"; "prog_char"; "prog_uchar"; "prog_int8_t"; "prog_uint8_t";
      "prog_int16_t"; "prog_uint16_t"; "prog_int32_t"; "prog_uint32_t";
      "prog_int64_t"; "prog_uint64_t" ].
Proof. vm_compute. reflexivity. Qed.

(** ** No failure of the header's own *)

Lemma substitutes_with_P read f g n :
  (f, g, n) ∈ P_family → substitutes_with read f = Some (CLibc g).
Proof.
  intros Hin. unfold P_family in Hin.
  repeat (apply elem_of_cons in Hin as [Hin|Hin]; [simplify_eq; reflexivity|]).
  by apply elem_of_nil in Hin.
Qed.

Lemma substitutes_with_accessor read k v :
  substitutes_with read (accessor k v) = Some (CRead (read k)).
Proof. destruct k, v; reflexivity. Qed.

Lemma substitutes_with_ext read read' name :
  (∀ k, read k = read' k) → substitutes_with read name = substitutes_with read' name.
Proof.
  intros H. unfold substitutes_with.
  repeat case_decide; try reflexivity.
  destruct (list_find _ P_family) as [[? [[? ?] ?]]|]; [reflexivity|].
  destruct (list_find _ _) as [[? [k ?]]|]; [|reflexivity].
  by rewrite H.
Qed.

(** C6, as stated, fails for the double word: the construct
    [pgm_read_dword] stands for in the specification is the 32-bit read, and
    on an LP64 target the accessor fails where this read does not.  With
    memory mapped up to address 4111, the 32-bit read at 4108 yields 1 and
    [pgm_read_dword] at 4108, reading eight bytes, fails. *)
Lemma pgm_read_dword_lp64_fails_beyond_the_32_bit_read :
  macros tu0 !! "pgm_read_dword" = Some pgm_read_dword
  ∧ substitutes_for "pgm_read_dword" = Some (CRead (TExact false 4))
  ∧ run lp64 sample_libc sample_literal tu0
      (ECall "pgm_read_dword" [EVal (VInt 4108)]) sample_state = None
  ∧ ('(vs, s1) ← run_list lp64 sample_libc sample_literal tu0
                   [EVal (VInt 4108)] sample_state;
     construct_sem lp64 sample_libc (CRead (TExact false 4)) vs s1) =
    Some (VInt 1, sample_state).
Proof. repeat split; vm_compute; reflexivity. Qed.

(** C6, amended.  Every operation the header defines does what the
    ordinary-memory construct it stands for does with the values of the
    arguments, and nothing else: it fails exactly where an argument fails or
    the construct fails, and otherwise returns the construct's result.  The
    construct of a [_P] function is the library function, that of [PSTR] and
    [_SFR_BYTE] the operand, that of an accessor the read of the type of its
    width on the target, for a double word the [unsigned long]; where
    [unsigned long] is four bytes wide this is the construct the
    specification names. *)
Theorem no_failure_of_its_own tg libc literal name ps b args s :
  macros tu0 !! name = Some (function_like ps b) → length args = length ps →
  ∃ c, substitutes_with (target_type tg) name = Some c
       ∧ run tg libc literal tu0 (ECall name args) s =
         ('(vs, s1) ← run_list tg libc literal tu0 args s;
          construct_sem tg libc c vs s1)
       ∧ (sizeof_long tg = 4%nat → substitutes_for name = Some c).
Proof.
  intros Hname Hlen.
  assert (sizeof_long tg = 4%nat → ∀ c,
            substitutes_with (target_type tg) name = Some c →
            substitutes_for name = Some c) as Hspec.
  { intros Hlong c <-. apply substitutes_with_ext.
    intros k. destruct k; try reflexivity. unfold target_type. by rewrite Hlong. }
  destruct (tu0_function_like name ps b Hname)
    as [[g Hg]|[(k & v & -> & Hps)|[(-> & -> & ->)|(-> & -> & ->)]]].
  - exists (CLibc g).
    pose proof (substitutes_with_P (target_type tg) _ _ _ Hg) as Hc.
    split; [exact Hc|]. split; [|intros Hlong; by apply Hspec].
    by rewrite (run_P tg libc literal name g _ args s Hg Hlen).
  - exists (CRead (target_type tg k)).
    pose proof (substitutes_with_accessor (target_type tg) k v) as Hc.
    split; [exact Hc|]. split; [|intros Hlong; by apply Hspec].
    rewrite Hps in Hlen. destruct args as [|e [|e' args]]; try discriminate Hlen.
    rewrite run_accessor, run_list_singleton.
    destruct (run tg libc literal tu0 e s) as [[x s1]|]; [|reflexivity].
    simpl. destruct (address x) as [a|]; [|reflexivity].
    simpl. by rewrite load_accessed.
  - exists COperand. split; [reflexivity|]. split; [|intros _; reflexivity].
    destruct args as [|e [|e' args]]; try discriminate Hlen.
    rewrite (proj2 (run_operand tg libc literal "PSTR" "str" e s tu0_PSTR)).
    rewrite run_list_singleton.
    by destruct (run tg libc literal tu0 e s) as [[x s1]|].
  - exists COperand. split; [reflexivity|]. split; [|intros _; reflexivity].
    destruct args as [|e [|e' args]]; try discriminate Hlen.
    rewrite (proj2 (run_operand tg libc literal "_SFR_BYTE" "n" e s tu0_SFR_BYTE)).
    rewrite run_list_singleton.
    by destruct (run tg libc literal tu0 e s) as [[x s1]|].
Qed.

Lemma no_failure_of_its_own_witness :
  (macros tu0 !! "pgm_read_dword_near" =
     Some (function_like ["addr"] (ECall "pgm_read_dword" [EId "addr"]))
   ∧ length [EVal (VInt 4110)] = length ["addr"]
   ∧ sizeof_long avr = 4%nat)
  ∧ substitutes_for "pgm_read_dword_near" = Some (CRead (TExact false 4))
  ∧ run avr sample_libc sample_literal tu0
      (ECall "pgm_read_dword_near" [EVal (VInt 4110)]) sample_state = None.
Proof.
  assert (macros tu0 !! "pgm_read_dword_near" =
          Some (function_like ["addr"] (ECall "pgm_read_dword" [EId "addr"]))) as Hm
    by (vm_compute; reflexivity).
  split; [split; [exact Hm | split; reflexivity]|].
  destruct (no_failure_of_its_own avr sample_libc sample_literal
              "pgm_read_dword_near" ["addr"] _ [EVal (VInt 4110)] sample_state
              Hm eq_refl) as (c & Hc & Hrun & Hspec).
  specialize (Hspec eq_refl).
  vm_compute in Hc. injection Hc as <-.
  split; [exact Hspec|].
  rewrite Hrun. vm_compute. reflexivity.
Defined.

(** * Further properties of the header *)

(** ** Every parameter once *)

Lemma ids_pars ps : flat_map ids (map par ps) = ps.
Proof. induction ps as [|p ps IH]; [done|]. simpl. by rewrite IH. Qed.

(** X3. The replacement list of every function-like macro of the header
    mentions exactly its parameters, each of them once and in the order of
    the parameter list: no argument is dropped, repeated or reordered. *)
Theorem macro_params_used_once name ps b :
  macros tu0 !! name = Some (function_like ps b) → ids b = ps.
Proof.
  intros Hf.
  destruct (tu0_function_like name ps b Hf)
    as [[g Hg]|[(k & v & -> & Hps)|[(-> & -> & ->)|(-> & -> & ->)]]].
  - destruct (P_family_forwards _ _ _ Hg) as (ps' & Hf' & _).
    rewrite Hf in Hf'. injection Hf' as <- ->.
    change (ids (ECall g (map par ps))) with (flat_map ids (map par ps)).
    apply ids_pars.
  - assert (v = Base ∨ v ≠ Base) as [->|Hv]
      by (destruct v; [left; reflexivity | right; discriminate | right; discriminate]).
    + rewrite tu0_base in Hf. by injection Hf as <- <-.
    + rewrite (tu0_near_far k v Hv) in Hf. by injection Hf as <- <-.
  - reflexivity.
  - reflexivity.
Qed.

Lemma macro_params_used_once_witness :
  macros tu0 !! "memmem_P" = Some memmem_P
  ∧ ids (ECall "memmem" [par "a"; par "alen"; par "b"; par "blen"]) =
    ["a"; "alen"; "b"; "blen"].
Proof.
  assert (macros tu0 !! "memmem_P" = Some memmem_P) as Hm
    by (vm_compute; reflexivity).
  split; [exact Hm|].
  exact (macro_params_used_once "memmem_P" _ _ Hm).
Defined.

(** ** The bytes an accessor touches *)

Lemma load_bytes_None m a n :
  load_bytes m a n = None ↔ ∃ i, (i < n)%nat ∧ m !! (a + Z.of_nat i) = None.
Proof.
  unfold load_bytes. rewrite mapM_None, Exists_exists. split.
  - intros (i & Hi & Hm). exists i. split; [|exact Hm].
    apply in_seq in Hi. lia.
  - intros (i & Hi & Hm). exists i. split; [|exact Hm].
    apply in_seq. lia.
Qed.

Lemma load_bytes_ext m m' a n :
  (∀ i, (i < n)%nat → m' !! (a + Z.of_nat i) = m !! (a + Z.of_nat i)) →
  load_bytes m' a n = load_bytes m a n.
Proof.
  intros H. unfold load_bytes. apply Forall_mapM_ext, Forall_forall.
  intros i Hi. apply H. apply in_seq in Hi. lia.
Qed.

Lemma run_accessor_at tg libc literal k v x a s :
  address x = Some a →
  run tg libc literal tu0 (ECall (accessor k v) [EVal x]) s =
  (r ← load tg (accessed_type k) (mem s) a; Some (r, s)).
Proof.
  intros Ha. rewrite run_accessor.
  replace (run tg libc literal tu0 (EVal x) s) with (Some (x, s))
    by (unfold run; by rewrite preprocess_eq).
  simpl. by rewrite Ha.
Qed.

(** X4. An accessor applied to an address reads the bytes from that address
    up to the size of its type, no other: one byte, two, as many as the
    target's [unsigned long], four, as many as a pointer.  It fails when one
    of these bytes lies outside the mapped memory, and what it returns is
    the same in every memory that agrees on these bytes. *)
Theorem pgm_read_footprint tg libc literal k v x a n s :
  address x = Some a → sizeof tg (accessed_type k) = Some n →
  n = match k with
      | KByte => 1%nat
      | KWord => 2%nat
      | KDword => sizeof_long tg
      | KFloat => 4%nat
      | KPtr => sizeof_ptr tg
      end
  ∧ ((∃ i, (i < n)%nat ∧ mem s !! (a + Z.of_nat i) = None) →
     run tg libc literal tu0 (ECall (accessor k v) [EVal x]) s = None)
  ∧ (∀ s2, (∀ i, (i < n)%nat →
                 mem s2 !! (a + Z.of_nat i) = mem s !! (a + Z.of_nat i)) →
           fst <$> run tg libc literal tu0 (ECall (accessor k v) [EVal x]) s2 =
           fst <$> run tg libc literal tu0 (ECall (accessor k v) [EVal x]) s).
Proof.
  intros Ha Hn. unfold sizeof in Hn.
  destruct (layout tg (accessed_type k)) as [[n0 r0]|] eqn:Hl; [|discriminate Hn].
  injection Hn as ->.
  assert (∀ m, load tg (accessed_type k) m a =
               (bs ← load_bytes m a n; Some (decode tg r0 bs))) as Hload
    by (intros m; unfold load; by rewrite Hl).
  split; [by destruct k; injection Hl as <- _|]. split.
  - intros Hi. apply load_bytes_None in Hi.
    by rewrite (run_accessor_at _ _ _ _ _ _ _ _ Ha), Hload, Hi.
  - intros s2 Hs2.
    rewrite !(run_accessor_at _ _ _ _ _ _ _ _ Ha), !Hload.
    rewrite (load_bytes_ext _ _ _ _ Hs2).
    by destruct (load_bytes (mem s) a n).
Qed.

Lemma pgm_read_footprint_witness :
  (address (VInt 4110) = Some 4110
   ∧ sizeof lp64 (accessed_type KDword) = Some 8%nat)
  ∧ run lp64 sample_libc sample_literal tu0
      (ECall (accessor KDword Base) [EVal (VInt 4110)]) sample_state = None.
Proof.
  split; [split; reflexivity|].
  apply (proj1 (proj2 (pgm_read_footprint lp64 sample_libc sample_literal KDword Base
                         (VInt 4110) 4110 8 sample_state eq_refl eq_refl))).
  exists 2%nat. split; [lia | vm_compute; reflexivity].
Defined.

(** ** The pointer type and the character aliases *)

Lemma run_cast_ptr tg libc literal t t' p e s :
  expand_type (macros tu0) 49 t = Some t' →
  canon (typedefs tu0) t' = Some (TPtr p) →
  run tg libc literal tu0 (ECast t e) s =
  '(x, s1) ← run tg libc literal tu0 e s;
  a ← address x;
  Some (VPtr p a, s1).
Proof.
  intros Ht Hc. unfold run. rewrite !preprocess_eq.
  rewrite (expand_eq _ _ (ECast _ _)), Ht, bind_Some.
  destruct (expand (macros tu0) 49 e) as [e'|]; [|reflexivity].
  cbn [fmap option_fmap option_map mbind option_bind eval].
  destruct (eval tg libc literal (typedefs tu0) e' s) as [[x s1]|]; [|reflexivity].
  cbn [mbind option_bind]. unfold cast. rewrite Hc.
  cbn [mbind option_bind unqual]. by destruct (address x).
Qed.

Lemma run_deref_cast_ptr tg libc literal t t' p e s :
  expand_type (macros tu0) 49 t = Some t' →
  canon (typedefs tu0) t' = Some (TPtr p) →
  run tg libc literal tu0 (EDeref (ECast t e)) s =
  '(x, s1) ← run tg libc literal tu0 e s;
  a ← address x;
  r ← load tg p (mem s1) a;
  Some (r, s1).
Proof.
  intros Ht Hc. unfold run. rewrite !preprocess_eq.
  rewrite (expand_eq _ _ (EDeref _)), (expand_eq _ _ (ECast _ _)), Ht, bind_Some.
  destruct (expand (macros tu0) 49 e) as [e'|]; [|reflexivity].
  cbn [fmap option_fmap option_map mbind option_bind eval].
  destruct (eval tg libc literal (typedefs tu0) e' s) as [[x s1]|]; [|reflexivity].
  cbn [mbind option_bind]. unfold cast. rewrite Hc.
  cbn [mbind option_bind unqual]. destruct (address x) as [a|]; [|reflexivity].
  cbn [fmap option_fmap option_map mbind option_bind].
  by destruct (load tg p (mem s1) a).
Qed.

Lemma tu0_PGM_P :
  expand_type (macros tu0) 49 (TNamed "PGM_P") = Some (TPtr (TConst TChar)).
Proof. vm_compute. reflexivity. Qed.

Lemma tu0_pointer_to_alias alias :
  macros tu0 !! alias = None →
  expand_type (macros tu0) 49 (TPtr (TNamed alias)) = Some (TPtr (TNamed alias)).
Proof. intros H. apply expand_type_stable. simpl. by rewrite H. Qed.

(** Reading one plain [char]: the stored byte, taken as signed where the
    target's [char] is signed. *)
Lemma load_char tg m a :
  load tg TChar m a =
  b ← m !! a;
  Some (VInt (if char_signed tg then wrap 1 RSigned (byte_val b) else byte_val b)).
Proof.
  unfold load, load_bytes. simpl. rewrite Z.add_0_r.
  destruct (m !! a) as [b|]; [|done]. simpl.
  assert (unsigned_of tg [b] = byte_val b) as Hu.
  { unfold unsigned_of. destruct (order tg); simpl; lia. }
  destruct (char_signed tg); simpl; by rewrite Hu.
Qed.

(** X5. [PGM_P] is the type pointer to [const char]: a cast to it keeps the
    address, and reading through it yields the stored byte as a plain
    [char], signed where the target's [char] is signed.  Where [char] is
    unsigned this is what [pgm_read_byte] returns. *)
Theorem PGM_P_is_pointer_to_const_char tg libc literal e s :
  run tg libc literal tu0 (ECast (TNamed "PGM_P") e) s =
    ('(x, s1) ← run tg libc literal tu0 e s;
     a ← address x;
     Some (VPtr (TConst TChar) a, s1))
  ∧ run tg libc literal tu0 (EDeref (ECast (TNamed "PGM_P") e)) s =
    ('(x, s1) ← run tg libc literal tu0 e s;
     a ← address x;
     b ← mem s1 !! a;
     Some (VInt (if char_signed tg then wrap 1 RSigned (byte_val b) else byte_val b), s1))
  ∧ (char_signed tg = false →
     run tg libc literal tu0 (EDeref (ECast (TNamed "PGM_P") e)) s =
     run tg libc literal tu0 (ECall (accessor KByte Base) [e]) s).
Proof.
  assert (run tg libc literal tu0 (EDeref (ECast (TNamed "PGM_P") e)) s =
    ('(x, s1) ← run tg libc literal tu0 e s;
     a ← address x;
     b ← mem s1 !! a;
     Some (VInt (if char_signed tg then wrap 1 RSigned (byte_val b) else byte_val b), s1)))
    as Hd.
  { rewrite (run_deref_cast_ptr tg libc literal _ _ (TConst TChar) e s tu0_PGM_P eq_refl).
    destruct (run tg libc literal tu0 e s) as [[x s1]|]; [|reflexivity].
    cbn [mbind option_bind]. destruct (address x) as [a|]; [|reflexivity].
    cbn [mbind option_bind]. rewrite load_const, load_char.
    by destruct (mem s1 !! a). }
  split; [exact (run_cast_ptr tg libc literal _ _ _ e s tu0_PGM_P eq_refl)|].
  split; [exact Hd|].
  intros Hu. rewrite Hd, run_accessor, Hu.
  destruct (run tg libc literal tu0 e s) as [[x s1]|]; [|reflexivity].
  cbn [mbind option_bind]. destruct (address x) as [a|]; [|reflexivity].
  cbn [mbind option_bind]. change (accessed_type KByte) with TUChar.
  rewrite load_uchar. by destruct (mem s1 !! a).
Qed.

Lemma PGM_P_is_pointer_to_const_char_witness :
  char_signed ilp32 = false
  ∧ run ilp32 sample_libc sample_literal tu0
      (EDeref (ECast (TNamed "PGM_P") (EId "p"))) sample_state =
    run ilp32 sample_libc sample_literal tu0
      (ECall (accessor KByte Base) [EId "p"]) sample_state.
Proof.
  split; [reflexivity|].
  exact (proj2 (proj2 (PGM_P_is_pointer_to_const_char ilp32 sample_libc
                         sample_literal (EId "p") sample_state)) eq_refl).
Defined.

(** X6. [prog_char] is [char] and [prog_void] is [void]: reading through a
    pointer to [prog_char] is reading through a [PGM_P], and a cast to
    pointer to [prog_void] keeps the address and yields a pointer to
    [void]. *)
Theorem prog_char_and_prog_void tg libc literal e s :
  run tg libc literal tu0 (EDeref (ECast (TPtr (TNamed "prog_char")) e)) s =
    run tg libc literal tu0 (EDeref (ECast (TNamed "PGM_P") e)) s
  ∧ run tg libc literal tu0 (ECast (TPtr (TNamed "prog_void")) e) s =
    ('(x, s1) ← run tg libc literal tu0 e s;
     a ← address x;
     Some (VPtr TVoid a, s1)).
Proof.
  assert (macros tu0 !! "prog_char" = None) as Hc by (vm_compute; reflexivity).
  assert (macros tu0 !! "prog_void" = None) as Hv by (vm_compute; reflexivity).
  split.
  - rewrite (run_deref_cast_ptr tg libc literal _ _ TChar e s
               (tu0_pointer_to_alias _ Hc) eq_refl).
    rewrite (run_deref_cast_ptr tg libc literal _ _ (TConst TChar) e s tu0_PGM_P eq_refl).
    destruct (run tg libc literal tu0 e s) as [[x s1]|]; [|reflexivity].
    cbn [mbind option_bind]. destruct (address x) as [a|]; [|reflexivity].
    cbn [mbind option_bind]. by rewrite load_const.
  - exact (run_cast_ptr tg libc literal _ _ TVoid e s
             (tu0_pointer_to_alias _ Hv) eq_refl).
Qed.

(** X7. Reading through a pointer to [prog_uchar] or [prog_uint8_t] is
    [pgm_read_byte], through a pointer to [prog_uint16_t] is
    [pgm_read_word], and, where [unsigned long] is four bytes wide, through
    a pointer to [prog_uint32_t] is [pgm_read_dword], in every variant. *)
Theorem typed_read_agrees tg libc literal alias k v e s :
  (alias, k) ∈ accessor_aliases →
  (k = KDword → sizeof_long tg = 4%nat) →
  run tg libc literal tu0 (EDeref (ECast (TPtr (TNamed alias)) e)) s =
  run tg libc literal tu0 (ECall (accessor k v) [e]) s.
Proof.
  intros Hin Hlong. unfold accessor_aliases in Hin.
  assert (∃ c, macros tu0 !! alias = None
               ∧ canon (typedefs tu0) (TPtr (TNamed alias)) = Some (TPtr c)
               ∧ layout tg c = layout tg (accessed_type k))
    as (c & Hm & Hc & Hl).
  { repeat (apply elem_of_cons in Hin as [Hin|Hin];
      [injection Hin as -> ->|]); [..|by apply elem_of_nil in Hin].
    - exists TUChar. repeat split; vm_compute; reflexivity.
    - exists (TExact false 1). repeat split; vm_compute; reflexivity.
    - exists (TExact false 2). repeat split; vm_compute; reflexivity.
    - exists (TExact false 4). split; [vm_compute; reflexivity|].
      split; [vm_compute; reflexivity|].
      simpl. by rewrite (Hlong eq_refl). }
  rewrite (run_deref_cast_ptr tg libc literal _ _ _ e s
             (tu0_pointer_to_alias _ Hm) Hc), run_accessor.
  destruct (run tg libc literal tu0 e s) as [[x s1]|]; [|reflexivity].
  cbn [mbind option_bind]. destruct (address x) as [a|]; [|reflexivity].
  cbn [mbind option_bind]. unfold load. rewrite Hl. reflexivity.
Qed.

Lemma typed_read_agrees_witness :
  (("prog_uint32_t", KDword) ∈ accessor_aliases
   ∧ (KDword = KDword → sizeof_long avr = 4%nat))
  ∧ run avr sample_libc sample_literal tu0
      (EDeref (ECast (TPtr (TNamed "prog_uint32_t")) (EVal (VInt 4104)))) sample_state =
    run avr sample_libc sample_literal tu0
      (ECall (accessor KDword Near) [EVal (VInt 4104)]) sample_state.
Proof.
  assert (("prog_uint32_t", KDword) ∈ accessor_aliases) as Hin
    by (apply list_elem_of_In; vm_compute; tauto).
  assert (KDword = KDword → sizeof_long avr = 4%nat) as Hl by reflexivity.
  split; [split; [exact Hin | exact Hl]|].
  exact (typed_read_agrees avr sample_libc sample_literal "prog_uint32_t" KDword Near
           (EVal (VInt 4104)) sample_state Hin Hl).
Defined.

(** ** What an inclusion does to the rest of the translation unit *)

Lemma defined_by_cons l ls :
  defined_by (l :: ls) =
  match l with Define n _ => [n] | _ => [] end ++ defined_by ls.
Proof. reflexivity. Qed.



Lemma define_typedefs n m T : typedefs (define n m T) = typedefs T.
Proof. reflexivity. Qed.


Lemma define_diags n m T : diags T `prefix_of` diags (define n m T).
Proof.
  unfold define. simpl. destruct (macros T !! n) as [m0|]; [|done].
  destruct (decide (m0 = m)); [done|]. by apply prefix_app_r.
Qed.

Lemma declare_diags t n T : diags T `prefix_of` diags (declare t n T).
Proof.
  unfold declare. destruct (canon (typedefs T) t); simpl.
  - destruct (typedefs T !! n); [by apply prefix_app_r | done].
  - by apply prefix_app_r.
Qed.



(** What the lines of the header that follow [#include <inttypes.h>] do,
    whatever the system header did before them. *)

Lemma process_own_macros sys n ls : ∀ T,
  declarations_only ls = true → n ∉ defined_by ls →
  macros (process sys ls 0 T) !! n = macros T !! n.
Proof.
  induction ls as [|l ls IH]; intros T Hp Hn; [done|].
  simpl in Hp. apply andb_true_iff in Hp as [Hl Hp].
  rewrite defined_by_cons in Hn. apply not_elem_of_app in Hn as [Hl' Hn].
  destruct l as [g| |h|n' m|t n']; try discriminate Hl; simpl.
  - by apply IH.
  - rewrite IH by done. unfold define. simpl.
    apply lookup_insert_ne. intros ->. apply Hl'. by left.
  - by rewrite IH, declare_keeps_macros.
Qed.


Lemma process_own_diags sys ls : ∀ T,
  declarations_only ls = true →
  diags T `prefix_of` diags (process sys ls 0 T).
Proof.
  induction ls as [|l ls IH]; intros T Hp; [done|].
  simpl in Hp. apply andb_true_iff in Hp as [Hl Hp].
  destruct l as [g| |h|n' m|t n']; try discriminate Hl; simpl.
  - by apply IH.
  - etrans; [apply define_diags | by apply IH].
  - etrans; [apply declare_diags | by apply IH].
Qed.

Lemma process_own_defines sys n m ls : ∀ T,
  declarations_only ls = true → NoDup (defined_by ls) → Define n m ∈ ls →
  macros (process sys ls 0 T) !! n = Some m.
Proof.
  induction ls as [|l ls IH]; intros T Hp Hnd Hin; [by apply elem_of_nil in Hin|].
  simpl in Hp. apply andb_true_iff in Hp as [Hl Hp].
  rewrite defined_by_cons in Hnd.
  apply elem_of_cons in Hin as [<-|Hin].
  - simpl. rewrite process_own_macros; [|exact Hp|].
    + unfold define. simpl. apply lookup_insert_eq.
    + simpl in Hnd. by apply NoDup_cons_1_1 in Hnd.
  - apply list.NoDup_app in Hnd as (_ & _ & Hnd).
    destruct l as [g| |h|n' m'|t n']; try discriminate Hl; simpl; by apply IH.
Qed.

Lemma defined_by_elem n m ls : Define n m ∈ ls → n ∈ defined_by ls.
Proof.
  intros H. unfold defined_by. apply list_elem_of_In, in_flat_map.
  exists (Define n m). split; [by apply list_elem_of_In | by left].
Qed.

Lemma process_own_redefinition sys n m m0 ls : ∀ T,
  declarations_only ls = true → NoDup (defined_by ls) → Define n m ∈ ls →
  macros T !! n = Some m0 → m0 ≠ m →
  MacroRedefined n ∈ diags (process sys ls 0 T).
Proof.
  induction ls as [|l ls IH]; intros T Hp Hnd Hin HT Hne;
    [by apply elem_of_nil in Hin|].
  simpl in Hp. apply andb_true_iff in Hp as [Hl Hp].
  rewrite defined_by_cons in Hnd.
  apply elem_of_cons in Hin as [<-|Hin].
  - simpl. destruct (process_own_diags sys ls (define n m T) Hp) as [k ->].
    apply elem_of_app. left. unfold define. simpl.
    rewrite HT, decide_False by done. apply elem_of_app. right. by left.
  - pose proof (defined_by_elem _ _ _ Hin) as Hn.
    apply list.NoDup_app in Hnd as (_ & Hdis & Hnd).
    destruct l as [g| |h|n' m'|t n']; try discriminate Hl; simpl.
    + by apply IH.
    + apply IH; try done. unfold define. simpl.
      rewrite lookup_insert_ne; [done|]. intros ->.
      apply (Hdis n); [by left | done].
    + apply IH; try done. by rewrite declare_keeps_macros.
Qed.



(** X9. At the first inclusion, that is with the guard not yet defined,
    every macro of the header ends up defined as the header writes it,
    whatever the translation unit had under that name before and whatever
    macros the system header defines, as long as the system header leaves
    the guard as the header defined it. *)
Theorem first_inclusion_defines sys n m T :
  macros T !! "__PGMSPACE_H_" = None → Define n m ∈ pgmspace_h →
  macros (sys "inttypes.h" (define "__PGMSPACE_H_" __PGMSPACE_H_ T))
    !! "__PGMSPACE_H_" = Some __PGMSPACE_H_ →
  macros (include_pgmspace sys T) !! n = Some m.
Proof.
  intros Hg Hin Hsys. unfold include_pgmspace, pgmspace_h in *.
  rewrite (process_ifndef sys), Hg, (process_define sys).
  change (process sys (Include "inttypes.h" :: ?ls) 0 ?T0)
    with (process sys ls 0 (sys "inttypes.h" T0)).
  apply elem_of_cons in Hin as [Hin|Hin]; [discriminate Hin|].
  apply elem_of_cons in Hin as [Hin|Hin].
  - injection Hin as -> ->. rewrite process_own_macros; [exact Hsys | reflexivity|].
    apply (bool_decide_unpack _). vm_compute. exact I.
  - apply elem_of_cons in Hin as [Hin|Hin]; [discriminate Hin|].
    apply process_own_defines; [reflexivity | | exact Hin].
    apply (bool_decide_unpack _). vm_compute. exact I.
Qed.

Lemma first_inclusion_defines_witness :
  (macros (define "PSTR" (function_like ["s"] (EId "s")) empty_tu) !! "__PGMSPACE_H_" = None
   ∧ Define "PSTR" PSTR ∈ pgmspace_h
   ∧ macros (system_header "inttypes.h"
               (define "__PGMSPACE_H_" __PGMSPACE_H_
                  (define "PSTR" (function_like ["s"] (EId "s")) empty_tu)))
       !! "__PGMSPACE_H_" = Some __PGMSPACE_H_)
  ∧ macros (include_pgmspace system_header
              (define "PSTR" (function_like ["s"] (EId "s")) empty_tu)) !! "PSTR" =
    Some PSTR.
Proof.
  assert (macros (define "PSTR" (function_like ["s"] (EId "s")) empty_tu)
            !! "__PGMSPACE_H_" = None) as Hg by (vm_compute; reflexivity).
  assert (Define "PSTR" PSTR ∈ pgmspace_h) as Hin
    by (apply list_elem_of_In; vm_compute; tauto).
  assert (macros (system_header "inttypes.h"
               (define "__PGMSPACE_H_" __PGMSPACE_H_
                  (define "PSTR" (function_like ["s"] (EId "s")) empty_tu)))
       !! "__PGMSPACE_H_" = Some __PGMSPACE_H_) as Hsys by (vm_compute; reflexivity).
  split; [split; [exact Hg | split; [exact Hin | exact Hsys]]|].
  exact (first_inclusion_defines system_header _ _ _ Hg Hin Hsys).
Defined.

(** X11. When, at the first inclusion, a name of the header other than the
    guard is defined as a different macro once [<inttypes.h>] has been
    read, the header's definition takes its place and the redefinition is
    diagnosed, whatever the system header does. *)
Theorem redefinition_is_diagnosed sys n m m0 T :
  macros T !! "__PGMSPACE_H_" = None → Define n m ∈ pgmspace_h →
  n ≠ "__PGMSPACE_H_" →
  macros (sys "inttypes.h" (define "__PGMSPACE_H_" __PGMSPACE_H_ T)) !! n = Some m0 →
  m0 ≠ m →
  MacroRedefined n ∈ diags (include_pgmspace sys T)
  ∧ macros (include_pgmspace sys T) !! n = Some m.
Proof.
  intros Hg Hin Hn HT Hne. unfold include_pgmspace, pgmspace_h in *.
  rewrite (process_ifndef sys), Hg, (process_define sys).
  change (process sys (Include "inttypes.h" :: ?ls) 0 ?T0)
    with (process sys ls 0 (sys "inttypes.h" T0)).
  apply elem_of_cons in Hin as [Hin|Hin]; [discriminate Hin|].
  apply elem_of_cons in Hin as [Hin|Hin]; [by injection Hin as -> ->|].
  apply elem_of_cons in Hin as [Hin|Hin]; [discriminate Hin|].
  assert (NoDup (defined_by
            (match pgmspace_h with _ :: _ :: _ :: ls => ls | _ => [] end))) as Hnd
    by (apply (bool_decide_unpack _); vm_compute; exact I).
  split.
  - apply (process_own_redefinition sys n m m0);
      [reflexivity | exact Hnd | exact Hin | exact HT | exact Hne].
  - apply process_own_defines; [reflexivity | exact Hnd | exact Hin].
Qed.

Lemma redefinition_is_diagnosed_witness :
  (macros (define "PSTR" (function_like ["s"] (EId "s")) empty_tu) !! "__PGMSPACE_H_" = None
   ∧ Define "PSTR" PSTR ∈ pgmspace_h
   ∧ "PSTR" ≠ "__PGMSPACE_H_"
   ∧ macros (system_header "inttypes.h"
               (define "__PGMSPACE_H_" __PGMSPACE_H_
                  (define "PSTR" (function_like ["s"] (EId "s")) empty_tu))) !! "PSTR" =
     Some (function_like ["s"] (EId "s"))
   ∧ function_like ["s"] (EId "s") ≠ PSTR)
  ∧ MacroRedefined "PSTR" ∈
    diags (include_pgmspace system_header
             (define "PSTR" (function_like ["s"] (EId "s")) empty_tu)).
Proof.
  assert (macros (define "PSTR" (function_like ["s"] (EId "s")) empty_tu)
            !! "__PGMSPACE_H_" = None) as Hg by (vm_compute; reflexivity).
  assert (Define "PSTR" PSTR ∈ pgmspace_h) as Hin
    by (apply list_elem_of_In; vm_compute; tauto).
  assert ("PSTR" ≠ "__PGMSPACE_H_") as Hn by discriminate.
  assert (macros (system_header "inttypes.h"
               (define "__PGMSPACE_H_" __PGMSPACE_H_
                  (define "PSTR" (function_like ["s"] (EId "s")) empty_tu))) !! "PSTR" =
          Some (function_like ["s"] (EId "s"))) as HT by (vm_compute; reflexivity).
  assert (function_like ["s"] (EId "s") ≠ PSTR) as Hne by discriminate.
  split; [repeat split; assumption|].
  exact (proj1 (redefinition_is_diagnosed system_header _ _ _ _ Hg Hin Hn HT Hne)).
Defined.

Section Inclusion.
(** A system header that keeps what is declared as it is declared. *)
Variable sys : string → tu → tu.
Hypothesis sys_typedefs : ∀ h T n c,
  typedefs T !! n = Some c → typedefs (sys h T) !! n = Some c.



End Inclusion.






(** ** Accessors of accessors *)

(** X14. Accessors compose: an accessor applied to what [pgm_read_ptr] (in
    any variant) reads at an address reads at the address that is stored
    there, with the argument evaluated once. *)
Theorem pgm_read_through_pointer tg libc literal k v v' e s :
  run tg libc literal tu0 (ECall (accessor k v) [ECall (accessor KPtr v') [e]]) s =
  '(x, s1) ← run tg libc literal tu0 e s;
  a ← address x;
  p ← load tg (TPtr TVoid) (mem s1) a;
  b ← address p;
  r ← load tg (accessed_type k) (mem s1) b;
  Some (r, s1).
Proof.
  rewrite !run_accessor.
  destruct (run tg libc literal tu0 e s) as [[x s1]|]; [|reflexivity].
  cbn [mbind option_bind]. destruct (address x) as [a|]; [|reflexivity].
  cbn [mbind option_bind]. change (accessed_type KPtr) with (TPtr TVoid).
  by destruct (load tg (TPtr TVoid) (mem s1) a).
Qed.
